(** * pygovee: the bluetooth command pipeline of [lightstrip_ble.py]

    A shallow embedding of [BLEController] (frame construction, the public
    commands, the blocking contract) and of [_BLEThread.work] (the worker
    that drains the queue and sends keep-alive frames), with the properties
    of the natural-language specification stated over it.

    Conventions.
    - A Python [int] is a [Z]; a [bytes] object is a list of [Byte.byte];
      a frame on the wire is a list of [Z], each in [0..255].
    - A Python [float] is a binary64 primitive float; [round] is the
      built-in of Python 3 (nearest integer, ties to even).
    - A reading of [time()] is a binary64 float, and [prev_time + 3] is
      the binary64 sum, rounded as Python rounds it.
    - The caller threads and the worker thread interleave at the
      granularity of the operations on the shared objects ([Queue.put],
      [Queue.get_nowait], [Queue.task_done], [Queue.join], the [stop] and
      [ready] attributes), each of which is atomic in CPython. *)

From Stdlib Require Import ZArith List Lia Bool String QArith Floats.
From stdpp Require Import list.
Import ListNotations.
Open Scope Z_scope.
Set Warnings "-register-all".

(* ================================================================== *)
(** ** Python values and exceptions *)
(* ================================================================== *)

Module Py.

(** The values a caller can pass where the source expects an [int] or a
    payload. *)
Inductive obj : Type :=
| Int (z : Z)
| Float (f : float)
| Str (s : string)
| None_
| Bytes (bs : list Byte.byte)
| List (xs : list obj).

(** The exceptions the code raises, with their messages. *)
Inductive exn : Type :=
| ValueError (msg : string)
| OverflowError (msg : string).

(** [isinstance(x, int)] *)
Definition is_int (x : obj) : bool :=
  match x with Int _ => true | _ => false end.

(** [len(payload)] for the two payload types that pass the type check. *)
Definition len (x : obj) : Z :=
  match x with
  | Bytes bs => Z.of_nat (List.length bs)
  | List xs => Z.of_nat (List.length xs)
  | _ => 0
  end.

Definition byte_val (b : Byte.byte) : Z := Z.of_N (Byte.to_N b).

(** [bytes(xs)] on a list of ints: every item must be in [range(0, 256)]. *)
Fixpoint bytes_of_ints (xs : list obj) : exn + list Z :=
  match xs with
  | [] => inr []
  | Int z :: rest =>
      if (0 <=? z) && (z <? 256) then
        match bytes_of_ints rest with
        | inr bs => inr (z :: bs)
        | inl e => inl e
        end
      else inl (ValueError "bytes must be in range(0, 256)")
  | _ :: _ => inl (ValueError "Invalid payload")
  end.

(** [bytes(payload)] *)
Definition bytes (x : obj) : exn + list Z :=
  match x with
  | Bytes bs => inr (map byte_val bs)
  | List xs => bytes_of_ints xs
  | _ => inl (ValueError "Invalid payload")
  end.

(** [round(x)] on a float, without [ndigits]: the nearest integer, ties
    going to the even one; infinities and NaN raise. *)
Definition round_half_even (m : positive) (e : Z) : Z :=
  if 0 <=? e then Z.pos m * 2 ^ e
  else
    let d := 2 ^ (- e) in
    let q := Z.pos m / d in
    let r := Z.pos m mod d in
    match 2 * r ?= d with
    | Lt => q
    | Gt => q + 1
    | Eq => if Z.even q then q else q + 1
    end.

Definition round (x : float) : exn + Z :=
  match Prim2SF x with
  | S754_zero _ => inr 0
  | S754_finite s m e =>
      let n := round_half_even m e in
      inr (if s then - n else n)
  | S754_infinity _ =>
      inl (OverflowError "cannot convert float infinity to integer")
  | S754_nan => inl (ValueError "cannot convert float NaN to integer")
  end.

(** The float of a small non-negative int (exact below [2^53]). *)
Definition float_of_int (z : Z) : float := PrimFloat.of_uint63 (Uint63.of_Z z).

End Py.

(* ================================================================== *)
(** ** Frames *)
(* ================================================================== *)

Module Frame.

(** A frame on the wire: its bytes in order, each a [Z] in [0..255]. *)
Abbreviation frame := (list Z).

(** [checksum = 0; for b in frame: checksum ^= b] *)
Definition xor_fold (bs : list Z) : Z := fold_left Z.lxor bs 0.

(** [frame += bytes([0] * (19 - len(frame)))]: a non-positive count
    gives the empty list. *)
Definition pad19 (bs : list Z) : list Z :=
  bs ++ repeat 0 (Z.to_nat (19 - Z.of_nat (List.length bs))).

(** [frame += bytes([checksum & 0xFF])] *)
Definition seal (bs : list Z) : frame :=
  bs ++ [Z.land (xor_fold bs) 255].

(** The keep-alive frame of [_BLEThread.work]:
    [bytes([0xAA, 0x01])], padded to 19 bytes, then the checksum. *)
Definition keep_alive : frame := seal (pad19 [170; 1]).

(** The first byte tells a command frame from a keep-alive frame. *)
Definition is_command (f : frame) : bool :=
  match f with b :: _ => b =? 51 | [] => false end.

Definition is_keep_alive (f : frame) : bool :=
  match f with b :: _ => b =? 170 | [] => false end.

Definition is_byte (z : Z) : Prop := 0 <= z < 256.

End Frame.

(* ================================================================== *)
(** ** BLEController *)
(* ================================================================== *)

Module Controller.
Import Py Frame.

(** A method body, as the sequence of its operations on the shared
    objects.  Every method of the controller returns [None], so a method
    takes the rest of the caller's program as its continuation. *)
Inductive prog : Type :=
| Return
| Raise (e : exn)
| QueuePut (f : frame) (k : prog)      (* self._queue.put(frame) *)
| QueueJoin (k : prog)                 (* self._queue.join() *)
| IfBlocking (kt kf : prog)            (* if self.blocking: ... *)
| SetBlocking (b : bool) (k : prog)    (* self.blocking = b *)
| StopWork (k : prog).                 (* self._worker.stop_work() *)

Definition InvalidCommand : exn := ValueError "Invalid command".
Definition InvalidPayload : exn := ValueError "Invalid payload".
Definition PayloadTooLong : exn := ValueError "Payload too long".
Definition BytesOutOfRange : exn := ValueError "bytes must be in range(0, 256)".
Definition BrightnessOutOfRange : exn :=
  ValueError "value must be between 0 and 100".

(** The payload type check of [_send]:
    [isinstance(payload, bytes) or (isinstance(payload, list) and
     all(isinstance(x, int) for x in payload))]. *)
Definition payload_type_ok (payload : obj) : bool :=
  match payload with
  | Bytes _ => true
  | List xs => forallb is_int xs
  | _ => false
  end.

(** The payload [body] as a caller passes it: a list of ints in byte
    range, or a [bytes] object. *)
Inductive payload_of : list Z -> obj -> Prop :=
| payload_list body : Forall is_byte body -> payload_of body (List (map Int body))
| payload_bytes bs : payload_of (map byte_val bs) (Bytes bs).

(** The frame [_send] builds, or the exception it raises before it
    touches the queue (lines 94-113). *)
Definition build_frame (cmd payload : obj) : exn + frame :=
  match cmd with
  | Int c =>
      if negb (payload_type_ok payload) then inl InvalidPayload
      else if 17 <? len payload then inl PayloadTooLong
      else
        let cmd := Z.land c 255 in
        match bytes payload with
        | inl e => inl e
        | inr body => inr (seal (pad19 ([51; cmd] ++ body)))
        end
  | _ => inl InvalidCommand
  end.

(** [_send(cmd, payload)] *)
Definition _send (cmd payload : obj) (k : prog) : prog :=
  match build_frame cmd payload with
  | inl e => Raise e
  | inr f => QueuePut f (IfBlocking (QueueJoin k) k)
  end.

(** [_cleanup()] *)
Definition _cleanup (k : prog) : prog := StopWork k.

(** [turn_off()] and [turn_on()] *)
Definition turn_off (k : prog) : prog := _send (Int 1) (List [Int 0]) k.
Definition turn_on (k : prog) : prog := _send (Int 1) (List [Int 1]) k.

(** [round((value / 100) * 0xFF)] for an int [value]. *)
Definition brightness_byte (value : Z) : exn + Z :=
  round (PrimFloat.mul (PrimFloat.div (float_of_int value) 100%float) 255%float).

(** The check behind the table of [brightness_byte] on [0..100]: the
    result is a byte, it is a nearest integer to [255 * v / 100], and a
    tie went to the even one. *)
Definition brightness_check (v : Z) : bool :=
  match brightness_byte v with
  | inr b =>
      (0 <=? b) && (b <? 256) && (Z.abs (100 * b - 255 * v) <=? 50)
      && implb (Z.abs (100 * b - 255 * v) =? 50) (Z.even b)
  | inl _ => false
  end.

(** [set_brightness(value)] *)
Definition set_brightness (value : Z) (k : prog) : prog :=
  if negb ((0 <=? value) && (value <=? 100)) then Raise BrightnessOutOfRange
  else
    match brightness_byte value with
    | inl e => Raise e
    | inr v => _send (Int 4) (List [Int v]) k
    end.

(** [set_rgb(r, g, b)] *)
Definition set_rgb (r g b : Z) (k : prog) : prog :=
  _send (Int 5) (List [Int 2; Int r; Int g; Int b]) k.

(** [disconnect(turn_off)] *)
Definition disconnect (turn_off_first : bool) (k : prog) : prog :=
  if turn_off_first then
    SetBlocking true (set_brightness 100 (turn_off (_cleanup k)))
  else _cleanup k.

(** The frames a program enqueues when it runs to its end, in program
    order.  At [if self.blocking] the two branches of [_send] differ only
    by the [join]; [uniform] says so of every branch of a program. *)
Fixpoint puts (p : prog) : list frame :=
  match p with
  | Return | Raise _ => []
  | QueuePut f k => f :: puts k
  | QueueJoin k | SetBlocking _ k | StopWork k => puts k
  | IfBlocking kt _ => puts kt
  end.

Fixpoint uniform (p : prog) : Prop :=
  match p with
  | Return | Raise _ => True
  | QueuePut _ k | QueueJoin k | SetBlocking _ k | StopWork k => uniform k
  | IfBlocking kt kf => puts kt = puts kf /\ uniform kt /\ uniform kf
  end.

(** The programs a user of the controller can write: calls of its
    methods, assignments to the user-editable [blocking], and
    [controller._queue.join()], the wait-until-drained of the
    specification. *)
Inductive api : prog -> Prop :=
| api_return : api Return
| api_send cmd payload k : api k -> api (_send cmd payload k)
| api_turn_off k : api k -> api (turn_off k)
| api_turn_on k : api k -> api (turn_on k)
| api_set_brightness v k : api k -> api (set_brightness v k)
| api_set_rgb r g b k : api k -> api (set_rgb r g b k)
| api_disconnect o k : api k -> api (disconnect o k)
| api_blocking b k : api k -> api (SetBlocking b k)
| api_join k : api k -> api (QueueJoin k).

(** What the invariants of the system need of a caller's program: its
    branches are uniform and it enqueues command frames only. *)
Definition good (p : prog) : Prop :=
  uniform p /\ Forall (fun f => is_command f = true) (puts p).

End Controller.

(* ================================================================== *)
(** ** The controller, its queue and the worker thread *)
(* ================================================================== *)

Module System.
Import Py Frame Controller.

(** Where the worker's coroutine [_BLEThread.work] stands. *)
Inductive wpc : Type :=
| WStart              (* thread started; at [prev_time = time()] (line 30) *)
| WConnect            (* entering [async with self.client] (line 32) *)
| WLoop               (* at [while not self.stop] (line 34) *)
| WPoll               (* at [self.queue.get_nowait()] (line 36) *)
| WGot (f : frame)    (* a frame was dequeued; at [prev_time = time()] (line 37) *)
| WWrite (f : frame)  (* at the write of line 50 *)
| WTaskDone           (* at [self.queue.task_done()] (line 51) *)
| WIdle               (* [Empty] caught; at [time() > prev_time + 3] (line 40) *)
| WKeepAlive          (* at the write of line 47 *)
| WStamp              (* at [prev_time = time()] (line 48) *)
| WClose              (* loop left; leaving [async with] *)
| WExited             (* [work()] returned *)
| WFailed.            (* an exception left [work()]; the thread is dead *)

Record state : Type := mkState {
  now : float;                 (* what [time()] returns *)
  queue : list frame;          (* [Queue]: the pending items, oldest first *)
  unfinished : nat;            (* [Queue.unfinished_tasks] *)
  stop : bool;                 (* [_BLEThread.stop] *)
  ready : bool;                (* [_BLEThread.ready] *)
  prev_time : float;           (* the local [prev_time] of [work] *)
  pc : wpc;
  connected : bool;            (* the [BleakClient] is connected *)
  link : list frame;           (* the frames written to the device, oldest first *)
  blocking : bool;             (* [BLEController.blocking] *)
  ctor : option bool;          (* [Some block]: [__init__] is still running *)
  callers : list prog;         (* what each caller thread has left to run *)
  enq : list (nat * frame)     (* history: which thread enqueued which frame *)
}.

(** The frame the worker holds between [get_nowait] and [task_done]
    while it is not yet written. *)
Definition in_flight (s : state) : list frame :=
  match pc s with
  | WGot f | WWrite f => [f]
  | _ => []
  end.

(** The items of the queue not yet marked done. *)
Definition pending (s : state) : nat :=
  match pc s with
  | WGot _ | WWrite _ | WTaskDone => S (length (queue s))
  | _ => length (queue s)
  end.

(** The command frames on the link, in the order written. *)
Definition transmitted (s : state) : list frame :=
  List.filter is_command (link s).

(** The keep-alive frames on the link. *)
Definition keep_alives (s : state) : list frame :=
  List.filter is_keep_alive (link s).

(** The frames enqueued so far, in the order enqueued. *)
Definition enqueued (s : state) : list frame := map snd (enq s).

(** The frames thread [t] enqueued so far. *)
Definition enqueued_by (t : nat) (s : state) : list frame :=
  map snd (List.filter (fun e => Nat.eqb (fst e) t) (enq s)).

(** [BLEController(mac, block)] right after [self._worker.start()]:
    the worker has not run yet, the constructor has not returned and no
    caller holds the controller. *)
Definition init (block : bool) (progs : list prog) : state :=
  {| now := 0%float; queue := []; unfinished := 0%nat; stop := false;
     ready := false; prev_time := 0%float; pc := WStart; connected := false;
     link := []; blocking := false; ctor := Some block; callers := progs;
     enq := [] |}.

(** Who moves next.  [Worker ok] carries the answer of the radio for a
    step that connects or writes; [Init] is the constructor; [Caller t]
    is caller thread [t]; [Tick t] lets the clock reach [t]. *)
Inductive choice : Type :=
| Tick (t : float)
| Worker (ok : bool)
| Init
| Caller (t : nat).

Definition set_pc (s : state) (p : wpc) : state :=
  mkState (now s) (queue s) (unfinished s) (stop s) (ready s) (prev_time s)
          p (connected s) (link s) (blocking s) (ctor s) (callers s) (enq s).

Definition set_caller (s : state) (t : nat) (k : prog) : state :=
  mkState (now s) (queue s) (unfinished s) (stop s) (ready s) (prev_time s)
          (pc s) (connected s) (link s) (blocking s) (ctor s)
          (<[t := k]> (callers s)) (enq s).

(** An exception leaves [work()]: the context manager disconnects and
    the thread dies. *)
Definition crash (s : state) : state :=
  mkState (now s) (queue s) (unfinished s) (stop s) (ready s) (prev_time s)
          WFailed false (link s) (blocking s) (ctor s) (callers s) (enq s).

(** One step of the worker. *)
Definition worker_step (ok : bool) (s : state) : option state :=
  match pc s with
  | WStart =>
      Some (mkState (now s) (queue s) (unfinished s) (stop s) (ready s) (now s)
                    WConnect (connected s) (link s) (blocking s) (ctor s)
                    (callers s) (enq s))
  | WConnect =>
      if ok then
        Some (mkState (now s) (queue s) (unfinished s) (stop s) true
                      (prev_time s) WLoop true (link s) (blocking s) (ctor s)
                      (callers s) (enq s))
      else Some (crash s)
  | WLoop => Some (set_pc s (if stop s then WClose else WPoll))
  | WPoll =>
      match queue s with
      | f :: q =>
          Some (mkState (now s) q (unfinished s) (stop s) (ready s)
                        (prev_time s) (WGot f) (connected s) (link s)
                        (blocking s) (ctor s) (callers s) (enq s))
      | [] => Some (set_pc s WIdle)
      end
  | WGot f =>
      Some (mkState (now s) (queue s) (unfinished s) (stop s) (ready s) (now s)
                    (WWrite f) (connected s) (link s) (blocking s) (ctor s)
                    (callers s) (enq s))
  | WWrite f =>
      if ok then
        Some (mkState (now s) (queue s) (unfinished s) (stop s) (ready s)
                      (prev_time s) WTaskDone (connected s) (link s ++ [f])
                      (blocking s) (ctor s) (callers s) (enq s))
      else Some (crash s)
  | WTaskDone =>
      match unfinished s with
      | S n =>
          Some (mkState (now s) (queue s) n (stop s) (ready s) (prev_time s)
                        WLoop (connected s) (link s) (blocking s) (ctor s)
                        (callers s) (enq s))
      | O => Some (crash s)
      end
  | WIdle =>
      Some (set_pc s (if PrimFloat.ltb (PrimFloat.add (prev_time s) 3%float)
                                        (now s)
                      then WKeepAlive else WLoop))
  | WKeepAlive =>
      if ok then
        Some (mkState (now s) (queue s) (unfinished s) (stop s) (ready s)
                      (prev_time s) WStamp (connected s)
                      (link s ++ [keep_alive]) (blocking s) (ctor s)
                      (callers s) (enq s))
      else Some (crash s)
  | WStamp =>
      Some (mkState (now s) (queue s) (unfinished s) (stop s) (ready s) (now s)
                    WLoop (connected s) (link s) (blocking s) (ctor s)
                    (callers s) (enq s))
  | WClose =>
      Some (mkState (now s) (queue s) (unfinished s) (stop s) (ready s)
                    (prev_time s) WExited false (link s) (blocking s) (ctor s)
                    (callers s) (enq s))
  | WExited | WFailed => None
  end.

(** One step of the constructor: [while not self._worker.ready: pass]
    when [block], then [self.blocking = True]. *)
Definition init_step (s : state) : option state :=
  match ctor s with
  | Some block =>
      if block && negb (ready s) then Some s
      else
        Some (mkState (now s) (queue s) (unfinished s) (stop s) (ready s)
                      (prev_time s) (pc s) (connected s) (link s) true None
                      (callers s) (enq s))
  | None => None
  end.

(** One step of caller thread [t]; [None] when the thread has finished,
    has died of an exception, waits in [join], or does not hold the
    controller yet. *)
Definition caller_step (t : nat) (s : state) : option state :=
  match ctor s with
  | Some _ => None
  | None =>
      match callers s !! t with
      | Some (QueuePut f k) =>
          Some (mkState (now s) (queue s ++ [f]) (S (unfinished s)) (stop s)
                        (ready s) (prev_time s) (pc s) (connected s) (link s)
                        (blocking s) (ctor s) (<[t := k]> (callers s))
                        (enq s ++ [(t, f)]))
      | Some (QueueJoin k) =>
          match unfinished s with
          | O => Some (set_caller s t k)
          | S _ => None
          end
      | Some (IfBlocking kt kf) =>
          Some (set_caller s t (if blocking s then kt else kf))
      | Some (SetBlocking b k) =>
          Some (mkState (now s) (queue s) (unfinished s) (stop s) (ready s)
                        (prev_time s) (pc s) (connected s) (link s) b (ctor s)
                        (<[t := k]> (callers s)) (enq s))
      | Some (StopWork k) =>
          Some (mkState (now s) (queue s) (unfinished s) true (ready s)
                        (prev_time s) (pc s) (connected s) (link s)
                        (blocking s) (ctor s) (<[t := k]> (callers s)) (enq s))
      | Some Return | Some (Raise _) | None => None
      end
  end.

Definition step (c : choice) (s : state) : option state :=
  match c with
  | Tick t =>
      if PrimFloat.leb (now s) t then
        Some (mkState t (queue s) (unfinished s) (stop s) (ready s)
                      (prev_time s) (pc s) (connected s) (link s) (blocking s)
                      (ctor s) (callers s) (enq s))
      else None
  | Worker ok => worker_step ok s
  | Init => init_step s
  | Caller t => caller_step t s
  end.

(** A schedule, run from [s]; [None] when one of its steps cannot move. *)
Fixpoint run (sched : list choice) (s : state) : option state :=
  match sched with
  | [] => Some s
  | c :: rest =>
      match step c s with
      | Some s' => run rest s'
      | None => None
      end
  end.

(** The states the system reaches from its start. *)
Inductive reachable (block : bool) (progs : list prog) : state -> Prop :=
| reach_init : reachable block progs (init block progs)
| reach_step c s s' :
    reachable block progs s -> step c s = Some s' -> reachable block progs s'.

(** The worker is inside [async with self.client]. *)
Definition inside (p : wpc) : bool :=
  match p with
  | WStart | WConnect | WExited | WFailed => false
  | _ => true
  end.

(** The frames thread [t] enqueued that are on the link already. *)
Definition transmitted_by (t : nat) (s : state) : list frame :=
  map snd (List.filter (fun e => Nat.eqb (fst e) t)
                       (take (length (transmitted s)) (enq s))).


(** The frame the worker took from the queue and has not written:
    the one of [in_flight] while the worker lives; a dead worker may
    have taken one frame with it. *)
Definition holds (s : state) (held : list frame) : Prop :=
  match pc s with
  | WFailed => (length held <= 1)%nat
  | _ => held = in_flight s
  end.

(** What every reachable state satisfies when the callers run programs
    [progs]. *)
Record invariant (progs : list prog) (s : state) : Prop := mkInvariant {
  inv_fifo :
    exists held,
      holds s held /\
      transmitted s ++ held ++ queue s = enqueued s /\
      unfinished s
      = (length held + length (queue s)
         + match pc s with WTaskDone => 1 | _ => 0 end)%nat;
  inv_commands : Forall (fun f => is_command f = true) (enqueued s);
  inv_link :
    Forall (fun f => is_command f = true \/ f = keep_alive) (link s);
  inv_connected : connected s = inside (pc s);
  inv_threads : length (callers s) = length progs;
  inv_order :
    forall t p, callers s !! t = Some p ->
      good p /\
      exists p0, progs !! t = Some p0 /\ enqueued_by t s ++ puts p = puts p0;
  inv_ctor :
    forall block, ctor s = Some block -> enq s = [] /\ callers s = progs
}.

End System.

(* ================================================================== *)
(** ** Scenarios *)
(* ================================================================== *)

Module Scenario.
Import Py Frame Controller System.

(** The worker connects and the constructor returns. *)
Definition startup : list choice := [Worker true; Worker true; Init].

(** One turn of the worker's loop that finds a frame and writes it. *)
Definition transmit : list choice :=
  [Worker true; Worker true; Worker true; Worker true; Worker true].

(** One turn of the worker's loop that finds the queue empty and the
    clock past the window: a keep-alive is written. *)
Definition idle_late : list choice :=
  [Worker true; Worker true; Worker true; Worker true; Worker true].

(** One turn of the worker's loop that finds the queue empty and the
    clock within the window. *)
Definition idle_early : list choice :=
  [Worker true; Worker true; Worker true].

(** Two caller threads, each sending two commands. *)
Definition two_callers : list prog :=
  [SetBlocking false (turn_on (set_rgb 1 2 3 Return));
   set_brightness 50 (turn_off Return)].

(** The second thread enqueues between the two sends of the first; the
    worker has written one frame and holds the next. *)
Definition interleaved : list choice :=
  startup
  ++ [Caller 0%nat; Caller 0%nat; Caller 1%nat; Caller 0%nat; Caller 0%nat]
  ++ transmit ++ [Worker true; Worker true; Worker true].

(** One caller with the default blocking flag: after [put] and the test
    of the flag it waits in [join] while the worker writes its frame. *)
Definition blocking_send : list choice :=
  startup ++ [Caller 0%nat; Caller 0%nat] ++ transmit.

(** The caller turns blocking off, disconnects, lets the worker leave
    its loop and close the connection, and then sends a command. *)
Definition send_after_disconnect : list prog :=
  [SetBlocking false (disconnect false (turn_on Return))].

Definition stopped : list choice :=
  startup ++ [Caller 0%nat; Caller 0%nat; Worker true; Worker true].

Definition after_disconnect : list choice :=
  stopped ++ [Caller 0%nat; Caller 0%nat].


(** A command is sent at time 0; the queue then stays empty until
    time 9, the worker polling at times 4 and 8; a second command is
    sent at time 9. *)
Definition on_then_off : list prog := [turn_on (turn_off Return)].

Definition idle_nine_seconds : list choice :=
  startup ++ [Caller 0%nat; Caller 0%nat] ++ transmit ++ [Caller 0%nat]
  ++ [Tick 4%float] ++ idle_late ++ [Tick 8%float] ++ idle_late
  ++ [Tick 9%float; Caller 0%nat; Caller 0%nat] ++ transmit.

(** A command is sent at time 0; the queue stays empty for exactly
    three seconds, the worker polling at time 3; a second command is
    sent then. *)
Definition idle_three_seconds : list choice :=
  startup ++ [Caller 0%nat; Caller 0%nat] ++ transmit ++ [Caller 0%nat]
  ++ [Tick 3%float] ++ idle_early
  ++ [Caller 0%nat; Caller 0%nat] ++ transmit.

(** The worker starts at clock reading 0.1 and the next poll reads 3.1:
    the binary64 sum [0.1 + 3] is 3.1 itself. *)
Definition started_at_a_tenth : list choice :=
  [Tick 0x1.999999999999ap-4%float; Worker true; Worker true; Init;
   Tick 0x1.8cccccccccccdp+1%float].

End Scenario.

(* ================================================================== *)
(** ** The routines built on the commands: [set_color], [blink], [fade] *)
(* ================================================================== *)

Module Routines.
Import Py Frame Controller.

(** The number of items of [range(start, stop, step)] for a step that
    is not zero. *)
Definition range_length (start stop step : Z) : Z :=
  if 0 <? step then
    if start <? stop then (stop - start - 1) / step + 1 else 0
  else
    if stop <? start then (start - stop - 1) / (- step) + 1 else 0.

(** [range(start, stop, step)], as the list of its items. *)
Definition range (start stop step : Z) : exn + list Z :=
  if step =? 0 then inl (ValueError "range() arg 3 must not be zero")
  else
    inr (map (fun i => start + Z.of_nat i * step)
             (seq 0 (Z.to_nat (range_length start stop step)))).

(** [sleep(secs)]: a negative length raises; otherwise the thread
    pauses, which any schedule allows (how long is not modelled). *)
Definition sleep (secs : Q) (k : prog) : prog :=
  if Qle_bool 0 secs then k
  else Raise (ValueError "sleep length must be non-negative").

(** A [Color] object, by its [red], [green] and [blue] attributes. *)
Definition Color : Type := (float * float * float)%type.

(** [color2rgb(color)], from the [Color] that [Color(color)] built:
    [round(x * 255)] for red, green and blue in turn. *)
Definition color2rgb (col : Color) : exn + (Z * Z * Z) :=
  let '(red, green, blue) := col in
  match round (PrimFloat.mul red 255%float) with
  | inl e => inl e
  | inr r =>
      match round (PrimFloat.mul green 255%float) with
      | inl e => inl e
      | inr g =>
          match round (PrimFloat.mul blue 255%float) with
          | inl e => inl e
          | inr b => inr (r, g, b)
          end
      end
  end.

(** [set_color(color)] *)
Definition set_color (col : Color) (k : prog) : prog :=
  match color2rgb col with
  | inl e => Raise e
  | inr (r, g, b) => set_rgb r g b k
  end.

(** [if color is not None: self.set_brightness(0); self.set_color(color)] *)
Definition prime (color : option Color) (k : prog) : prog :=
  match color with
  | Some col => set_brightness 0 (set_color col k)
  | None => k
  end.

(** The body of the loop of [blink], [n] times. *)
Fixpoint blink_loop (n : nat) (delay : Q) (k : prog) : prog :=
  match n with
  | O => k
  | S n =>
      set_brightness 100
        (sleep delay (set_brightness 0 (sleep delay (blink_loop n delay k))))
  end.

(** [blink(iterations, delay, color)] *)
Definition blink (iterations : Z) (delay : Q) (color : option Color)
           (k : prog) : prog :=
  prime color (blink_loop (Z.to_nat iterations) delay k).

(** [for i in items: self.set_brightness(i)] *)
Fixpoint ramp (items : list Z) (k : prog) : prog :=
  match items with
  | [] => k
  | i :: rest => set_brightness i (ramp rest k)
  end.

(** [for i in range(start, stop, step): self.set_brightness(i)] *)
Definition ramp_range (start stop step : Z) (k : prog) : prog :=
  match range start stop step with
  | inl e => Raise e
  | inr items => ramp items k
  end.

(** [fade(fade_in, fade_out, fade_amt, fade_speed, color)] *)
Definition fade (fade_in fade_out : bool) (fade_amt fade_speed : Z)
           (color : option Color) (k : prog) : prog :=
  let out :=
    if fade_out then ramp_range fade_amt (-1) (- fade_speed) k else k in
  prime color
    (if fade_in then ramp_range 0 (fade_amt + 1) fade_speed out else out).

(** The program that enqueues the frames [fs] one send after the other,
    each send with its test of the blocking flag, and goes on as [k]. *)
Fixpoint sends (fs : list frame) (k : prog) : prog :=
  match fs with
  | [] => k
  | f :: rest =>
      QueuePut f (IfBlocking (QueueJoin (sends rest k)) (sends rest k))
  end.

(** The frame of [set_brightness(value)] for a value it accepts. *)
Definition level_frame (value : Z) : frame :=
  match brightness_byte value with
  | inr b => seal (pad19 [51; 4; b])
  | inl _ => []
  end.

(** The table behind the order of the brightness bytes on [0..100]. *)
Definition level_byte (value : Z) : Z :=
  match brightness_byte value with inr b => b | inl _ => -1 end.

Definition levels_increase : bool :=
  forallb (fun v => level_byte v <? level_byte (v + 1))
          (map Z.of_nat (seq 0 100)).

End Routines.

(* ================================================================== *)
(** ** [bluetooth_tools.py] *)
(* ================================================================== *)

Module Tools.

(** A scanned device: its advertised name, if it has one, and its
    address. *)
Record BLEDevice : Type := mkDevice {
  name : option string;
  address : string
}.

(** [dev.name == device_name] *)
Definition named (device_name : string) (dev : BLEDevice) : bool :=
  match name dev with
  | Some n => String.eqb n device_name
  | None => false
  end.

(** [get_mac_from_name(device_name)] over the devices the scan found:
    the address of the first device of that name, [None] when the loop
    ends without one. *)
Fixpoint get_mac_from_name (devices : list BLEDevice) (device_name : string)
  : option string :=
  match devices with
  | [] => None
  | dev :: rest =>
      if named device_name dev then Some (address dev)
      else get_mac_from_name rest device_name
  end.

End Tools.

(* ================================================================== *)
(** ** Stopping the worker *)
(* ================================================================== *)

Module Shutdown.
Import Py Frame Controller System Routines.

(** The writes a worker that has been told to stop can still make: the
    one of the turn of the loop it is in, if that turn has passed the
    test of [self.stop] and has not written yet. *)
Definition budget (p : wpc) : nat :=
  match p with
  | WPoll | WGot _ | WWrite _ | WIdle | WKeepAlive => 1
  | _ => 0
  end.

(** The frames of [set_brightness(100)] and of [turn_off()]. *)
Definition full_frame : frame := seal (pad19 [51; 4; 255]).
Definition off_frame : frame := seal (pad19 [51; 1; 0]).

(** The only caller thread runs [disconnect(turn_off=True)] and then
    [k]; [before] are the frames enqueued when it started.  One case for
    each place the thread can be at. *)
Inductive turning_off (before : list frame) (k : prog) (s : state) : Prop :=
| off_start :
    callers s = [disconnect true k] -> enqueued s = before ->
    stop s = false -> turning_off before k s
| off_put_full :
    callers s = [sends [full_frame; off_frame] (StopWork k)] ->
    blocking s = true -> enqueued s = before -> stop s = false ->
    turning_off before k s
| off_test_full :
    callers s = [IfBlocking (QueueJoin (sends [off_frame] (StopWork k)))
                            (sends [off_frame] (StopWork k))] ->
    blocking s = true -> enqueued s = before ++ [full_frame] ->
    stop s = false -> turning_off before k s
| off_join_full :
    callers s = [QueueJoin (sends [off_frame] (StopWork k))] ->
    blocking s = true -> enqueued s = before ++ [full_frame] ->
    stop s = false -> turning_off before k s
| off_put_off :
    callers s = [sends [off_frame] (StopWork k)] ->
    blocking s = true -> enqueued s = before ++ [full_frame] ->
    stop s = false -> turning_off before k s
| off_test_off :
    callers s = [IfBlocking (QueueJoin (StopWork k)) (StopWork k)] ->
    blocking s = true ->
    enqueued s = before ++ [full_frame; off_frame] ->
    stop s = false -> turning_off before k s
| off_join_off :
    callers s = [QueueJoin (StopWork k)] ->
    enqueued s = before ++ [full_frame; off_frame] ->
    stop s = false -> turning_off before k s
| off_stop :
    callers s = [StopWork k] ->
    (before ++ [full_frame; off_frame]) `prefix_of` transmitted s ->
    stop s = false -> turning_off before k s
| off_done :
    (before ++ [full_frame; off_frame]) `prefix_of` transmitted s ->
    turning_off before k s.

End Shutdown.

(* ================================================================== *)
(** ** Frames: what [_send] builds *)
(* ================================================================== *)

Import Py Frame Controller System Scenario.

Lemma length_pad19 (bs : list Z) :
  (length bs <= 19)%nat -> length (pad19 bs) = 19%nat.
Proof.
  intros H. unfold pad19. rewrite length_app, repeat_length. lia.
Qed.

Lemma length_seal (bs : list Z) : length (seal bs) = S (length bs).
Proof. unfold seal. rewrite length_app. simpl. lia. Qed.

Lemma take_seal (bs : list Z) : take (length bs) (seal bs) = bs.
Proof. unfold seal. now rewrite take_app_length. Qed.

Lemma lookup_seal (bs : list Z) :
  seal bs !! length bs = Some (Z.land (xor_fold bs) 255).
Proof.
  unfold seal. rewrite lookup_app_r by lia. now rewrite Nat.sub_diag.
Qed.

Lemma land_255_byte (z : Z) : is_byte z -> Z.land z 255 = z.
Proof.
  intros H. change 255 with (Z.ones 8). rewrite Z.land_ones by lia.
  apply Z.mod_small. unfold is_byte in H. lia.
Qed.

Lemma land_255_is_byte (z : Z) : is_byte (Z.land z 255).
Proof.
  change 255 with (Z.ones 8). rewrite Z.land_ones by lia.
  unfold is_byte. pose proof (Z.mod_pos_bound z (2 ^ 8)). lia.
Qed.

Lemma bytes_of_ints_map (body : list Z) :
  Forall is_byte body -> bytes_of_ints (map Int body) = inr body.
Proof.
  induction 1 as [|z body Hz _ IH]; simpl; [reflexivity|].
  unfold is_byte in Hz.
  replace ((0 <=? z) && (z <? 256)) with true
    by (symmetry; apply andb_true_intro; split;
        [apply Z.leb_le|apply Z.ltb_lt]; lia).
  now rewrite IH.
Qed.

Lemma forallb_is_int_map (body : list Z) : forallb is_int (map Int body) = true.
Proof. induction body; simpl; auto. Qed.

Lemma payload_of_ok (body : list Z) (payload : obj) :
  payload_of body payload ->
  payload_type_ok payload = true /\ len payload = Z.of_nat (length body) /\
  bytes payload = inr body.
Proof.
  destruct 1 as [body H|bs]; simpl.
  - rewrite forallb_is_int_map, length_map, bytes_of_ints_map by assumption. auto.
  - rewrite length_map. auto.
Qed.

Lemma build_frame_ok (c : Z) (payload : obj) (body : list Z) :
  payload_of body payload -> (length body <= 17)%nat ->
  build_frame (Int c) payload = inr (seal (pad19 (51 :: Z.land c 255 :: body))).
Proof.
  intros Hp Hlen. destruct (payload_of_ok _ _ Hp) as (Hty & Hl & Hb).
  unfold build_frame. rewrite Hty, Hl, Hb. simpl.
  replace (17 <? Z.of_nat (length body)) with false
    by (symmetry; apply Z.ltb_ge; lia).
  reflexivity.
Qed.

(** C1: for every command byte and every payload of at most 17 bytes,
    [_send] builds and enqueues a frame of exactly 20 bytes: byte 0 is
    0x33, byte 1 the command code, bytes 2..18 the payload followed by
    zero bytes, and byte 19 the XOR of bytes 0..18 masked to 8 bits. *)
Theorem send_frame_layout (cmd : Z) (body : list Z) (payload : obj) (k : prog) :
  is_byte cmd -> payload_of body payload -> (length body <= 17)%nat ->
  exists f : frame,
    _send (Int cmd) payload k = QueuePut f (IfBlocking (QueueJoin k) k) /\
    length f = 20%nat /\
    f !! 0%nat = Some 51 /\
    f !! 1%nat = Some cmd /\
    take 17 (drop 2 f) = body ++ repeat 0 (17 - length body) /\
    f !! 19%nat = Some (Z.land (xor_fold (take 19 f)) 255).
Proof.
  intros Hc Hp Hlen.
  exists (seal (pad19 (51 :: cmd :: body))).
  assert (H19 : length (pad19 (51 :: cmd :: body)) = 19%nat)
    by (apply length_pad19; simpl; lia).
  split; [|split; [|split; [|split; [|split]]]].
  - unfold _send. rewrite (build_frame_ok cmd payload body Hp Hlen).
    now rewrite (land_255_byte cmd Hc).
  - rewrite length_seal, H19. reflexivity.
  - reflexivity.
  - reflexivity.
  - unfold seal, pad19. simpl. rewrite drop_0.
    replace (Z.to_nat (19 - Z.of_nat (S (S (length body)))))
      with (17 - length body)%nat by lia.
    apply take_app_length'. rewrite length_app, repeat_length. lia.
  - rewrite <- H19 at 1 2. rewrite take_seal. apply lookup_seal.
Qed.

Lemma send_frame_layout_witness :
  exists f : frame,
    _send (Int 5) (List (map Int [2; 255; 0; 128])) Return
      = QueuePut f (IfBlocking (QueueJoin Return) Return) /\
    length f = 20%nat /\
    f !! 0%nat = Some 51 /\
    f !! 1%nat = Some 5 /\
    take 17 (drop 2 f) = [2; 255; 0; 128] ++ repeat 0 (17 - 4) /\
    f !! 19%nat = Some (Z.land (xor_fold (take 19 f)) 255).
Proof.
  apply (send_frame_layout 5 [2; 255; 0; 128]).
  - unfold is_byte; lia.
  - apply payload_list. repeat constructor; unfold is_byte; lia.
  - simpl; lia.
Defined.

(** Against C2 as stated: the int command 300 is not rejected; [_send]
    reduces it to [300 & 0xFF] = 44 and enqueues the frame. *)
Lemma send_accepts_command_300 :
  _send (Int 300) (List []) Return
  = QueuePut [51; 44; 0; 0; 0; 0; 0; 0; 0; 0; 0; 0; 0; 0; 0; 0; 0; 0; 0; 31]
             (IfBlocking (QueueJoin Return) Return)
  /\ option_map queue
       (run [Worker true; Worker true; Init; Caller 0%nat]
            (init true [_send (Int 300) (List []) Return]))
     = Some [[51; 44; 0; 0; 0; 0; 0; 0; 0; 0; 0; 0; 0; 0; 0; 0; 0; 0; 0; 31]].
Proof. split; reflexivity. Qed.

(** C2 (amended): [_send] fails with "Invalid command" for every command
    that is not an int and, for an int command and a payload of the
    right type, with "Payload too long" for every payload longer than 17
    bytes; an int command outside [0..255] is not rejected but reduced
    to its low eight bits.  On a failure no frame is built and the
    calling thread makes no move on the queue. *)
Theorem send_rejects (cmd payload : obj) (k : prog) :
  (is_int cmd = false -> _send cmd payload k = Raise InvalidCommand) /\
  (is_int cmd = true -> payload_type_ok payload = true -> 17 < len payload ->
   _send cmd payload k = Raise PayloadTooLong) /\
  (forall c body, cmd = Int c -> payload_of body payload ->
   (length body <= 17)%nat ->
   _send cmd payload k
   = QueuePut (seal (pad19 (51 :: c mod 256 :: body)))
              (IfBlocking (QueueJoin k) k)) /\
  (forall e, _send cmd payload k = Raise e ->
   puts (_send cmd payload k) = [] /\
   forall s t, callers s !! t = Some (_send cmd payload k) ->
               step (Caller t) s = None).
Proof.
  split; [|split; [|split]].
  - intros H. destruct cmd; try discriminate; reflexivity.
  - intros Hc Hty Hlen. destruct cmd; try discriminate.
    unfold _send, build_frame. rewrite Hty. simpl.
    now replace (17 <? len payload) with true by (symmetry; apply Z.ltb_lt; lia).
  - intros c body -> Hp Hlen. unfold _send.
    rewrite (build_frame_ok c payload body Hp Hlen).
    change 255 with (Z.ones 8). rewrite Z.land_ones by lia. reflexivity.
  - intros e He. rewrite He. split; [reflexivity|].
    intros s t Ht. simpl. unfold caller_step. rewrite Ht.
    now destruct (ctor s).
Qed.

Lemma send_rejects_witness :
  _send (Str "on") (List []) Return = Raise InvalidCommand /\
  _send (Int 1) (List (map Int (repeat 0 18))) Return = Raise PayloadTooLong /\
  _send (Int (-1)) (List (map Int [7])) Return
  = QueuePut (seal (pad19 [51; 255; 7])) (IfBlocking (QueueJoin Return) Return).
Proof.
  split; [|split].
  - apply (send_rejects (Str "on") (List []) Return). reflexivity.
  - apply (send_rejects (Int 1) (List (map Int (repeat 0 18))) Return).
    + reflexivity.
    + reflexivity.
    + simpl. lia.
  - destruct (send_rejects (Int (-1)) (List (map Int [7])) Return)
      as (_ & _ & H & _).
    apply (H (-1) [7]).
    + reflexivity.
    + apply payload_list. repeat constructor; unfold is_byte; lia.
    + simpl. lia.
Defined.

Lemma brightness_table :
  forallb brightness_check (map Z.of_nat (seq 0 101)) = true.
Proof. vm_compute. reflexivity. Qed.

Lemma brightness_in_range (value : Z) :
  0 <= value <= 100 -> brightness_check value = true.
Proof.
  intros H. pose proof brightness_table as T.
  rewrite forallb_forall in T. apply T.
  rewrite <- (Z2Nat.id value) by lia.
  apply in_map, in_seq. lia.
Qed.

(** C3: [set_brightness] fails, with "value must be between 0 and 100",
    for every value outside [0,100]; for every value in [0,100] it sends
    command 0x04 with the single payload byte [round(value/100*255)], a
    nearest integer to [255*value/100] (a tie going to the even one);
    that byte is 0x00 for 0 and 0xFF for 100. *)
Theorem set_brightness_spec (value : Z) (k : prog) :
  (value < 0 \/ 100 < value ->
   set_brightness value k = Raise BrightnessOutOfRange) /\
  (0 <= value <= 100 ->
   exists b,
     brightness_byte value = inr b /\ is_byte b /\
     Z.abs (100 * b - 255 * value) <= 50 /\
     (Z.abs (100 * b - 255 * value) = 50 -> Z.even b = true) /\
     set_brightness value k = _send (Int 4) (List [Int b]) k /\
     set_brightness value k
     = QueuePut (seal (pad19 [51; 4; b])) (IfBlocking (QueueJoin k) k)) /\
  set_brightness 0 k
  = QueuePut (seal (pad19 [51; 4; 0])) (IfBlocking (QueueJoin k) k) /\
  set_brightness 100 k
  = QueuePut (seal (pad19 [51; 4; 255])) (IfBlocking (QueueJoin k) k).
Proof.
  split; [|split; [|split]]; try reflexivity.
  - intros H. unfold set_brightness.
    replace ((0 <=? value) && (value <=? 100)) with false; [reflexivity|].
    symmetry. apply andb_false_iff.
    destruct H; [left; apply Z.leb_gt|right; apply Z.leb_gt]; lia.
  - intros H. pose proof (brightness_in_range value H) as C.
    unfold brightness_check in C.
    destruct (brightness_byte value) as [e|b] eqn:E; [discriminate|].
    apply andb_true_iff in C as [C C4]. apply andb_true_iff in C as [C C3].
    apply andb_true_iff in C as [C1 C2].
    apply Z.leb_le in C1, C3. apply Z.ltb_lt in C2.
    assert (Hb : is_byte b) by (unfold is_byte; lia).
    assert (S : set_brightness value k = _send (Int 4) (List [Int b]) k).
    { unfold set_brightness. rewrite E.
      replace ((0 <=? value) && (value <=? 100)) with true; [reflexivity|].
      symmetry. apply andb_true_intro. split; apply Z.leb_le; lia. }
    exists b. repeat split; try assumption; try lia.
    + intros T. apply Z.eqb_eq in T. rewrite T in C4. exact C4.
    + rewrite S. unfold _send. change (List [Int b]) with (List (map Int [b])).
      rewrite (build_frame_ok 4 (List (map Int [b])) [b]).
      * reflexivity.
      * apply payload_list. constructor; [exact Hb|constructor].
      * simpl. lia.
Qed.

Lemma set_brightness_spec_witness :
  set_brightness 150 Return = Raise BrightnessOutOfRange /\
  set_brightness (-10) Return = Raise BrightnessOutOfRange /\
  exists b,
    brightness_byte 30 = inr b /\ is_byte b /\
    Z.abs (100 * b - 255 * 30) <= 50 /\
    (Z.abs (100 * b - 255 * 30) = 50 -> Z.even b = true) /\
    set_brightness 30 Return = _send (Int 4) (List [Int b]) Return /\
    set_brightness 30 Return
    = QueuePut (seal (pad19 [51; 4; b])) (IfBlocking (QueueJoin Return) Return).
Proof.
  split; [|split].
  - apply (set_brightness_spec 150 Return). lia.
  - apply (set_brightness_spec (-10) Return). lia.
  - apply (set_brightness_spec 30 Return). lia.
Defined.

Lemma byte_test (z : Z) : (0 <=? z) && (z <? 256) = true <-> is_byte z.
Proof.
  unfold is_byte. rewrite andb_true_iff, Z.leb_le, Z.ltb_lt. tauto.
Qed.

(** C4: [set_rgb] fails (the [ValueError] of [bytes]: "bytes must be in
    range(0, 256)") whenever one of [r], [g], [b] is outside [0..255],
    and otherwise sends command 0x05 with the payload [0x02, r, g, b];
    [set_rgb(255, 0, 128)] sends the payload [0x02, 0xFF, 0x00, 0x80]. *)
Theorem set_rgb_spec (r g b : Z) (k : prog) :
  (~ (is_byte r /\ is_byte g /\ is_byte b) ->
   set_rgb r g b k = Raise BytesOutOfRange) /\
  (is_byte r -> is_byte g -> is_byte b ->
   set_rgb r g b k
   = QueuePut (seal (pad19 ([51; 5] ++ [2; r; g; b])))
              (IfBlocking (QueueJoin k) k)) /\
  set_rgb 255 0 128 k
  = QueuePut [51; 5; 2; 255; 0; 128; 0; 0; 0; 0; 0; 0; 0; 0; 0; 0; 0; 0; 0; 75]
             (IfBlocking (QueueJoin k) k).
Proof.
  split; [|split]; [| |reflexivity].
  - intros H. unfold set_rgb, _send, build_frame. simpl.
    destruct ((0 <=? r) && (r <? 256)) eqn:Er; [|reflexivity].
    destruct ((0 <=? g) && (g <? 256)) eqn:Eg; [|reflexivity].
    destruct ((0 <=? b) && (b <? 256)) eqn:Eb; [|reflexivity].
    exfalso. apply H. rewrite <- !byte_test. auto.
  - intros Hr Hg Hb. unfold set_rgb, _send.
    change (List [Int 2; Int r; Int g; Int b])
      with (List (map Int [2; r; g; b])).
    rewrite (build_frame_ok 5 _ [2; r; g; b]).
    + reflexivity.
    + apply payload_list.
      repeat (constructor; [first [assumption | unfold is_byte; lia]|]).
      constructor.
    + simpl. lia.
Qed.

Lemma set_rgb_spec_witness :
  set_rgb 256 0 0 Return = Raise BytesOutOfRange /\
  set_rgb 0 (-1) 0 Return = Raise BytesOutOfRange /\
  set_rgb 10 20 30 Return
  = QueuePut (seal (pad19 ([51; 5] ++ [2; 10; 20; 30])))
             (IfBlocking (QueueJoin Return) Return).
Proof.
  split; [|split].
  - apply (set_rgb_spec 256 0 0 Return). unfold is_byte. lia.
  - apply (set_rgb_spec 0 (-1) 0 Return). unfold is_byte. lia.
  - apply (set_rgb_spec 10 20 30 Return); unfold is_byte; lia.
Defined.

(* ================================================================== *)
(** ** Programs written with the controller's methods *)
(* ================================================================== *)

Lemma build_frame_command (cmd payload : obj) (f : frame) :
  build_frame cmd payload = inr f -> is_command f = true.
Proof.
  unfold build_frame. destruct cmd; try discriminate.
  destruct (negb (payload_type_ok payload)); [discriminate|].
  destruct (17 <? len payload); [discriminate|].
  destruct (bytes payload); [discriminate|].
  intros [= <-]. reflexivity.
Qed.

Lemma keep_alive_not_command : is_command keep_alive = false.
Proof. reflexivity. Qed.

Lemma good_send (cmd payload : obj) (k : prog) :
  good k -> good (_send cmd payload k).
Proof.
  intros [U C]. unfold _send.
  destruct (build_frame cmd payload) as [e|f] eqn:E.
  - split; [exact I|constructor].
  - split; simpl; [tauto|].
    constructor; [exact (build_frame_command _ _ _ E)|exact C].
Qed.

Lemma good_set_brightness (v : Z) (k : prog) :
  good k -> good (set_brightness v k).
Proof.
  intros G. unfold set_brightness.
  destruct (negb _); [split; [exact I|constructor]|].
  destruct (brightness_byte v); [split; [exact I|constructor]|].
  now apply good_send.
Qed.

Lemma api_good (p : prog) : api p -> good p.
Proof.
  induction 1 as [|cmd payload k _ IH|k _ IH|k _ IH|v k _ IH|r g b k _ IH
                  |o k _ IH|b k _ IH|k _ IH].
  - split; [exact I|constructor].
  - now apply good_send.
  - now apply good_send.
  - now apply good_send.
  - now apply good_set_brightness.
  - now apply good_send.
  - destruct o; simpl; [|exact IH].
    apply good_set_brightness, good_send. exact IH.
  - exact IH.
  - exact IH.
Qed.

(* ================================================================== *)
(** ** The invariant of the system *)
(* ================================================================== *)

Lemma invariant_init (block : bool) (progs : list prog) :
  Forall good progs -> invariant progs (init block progs).
Proof.
  intros G. constructor; simpl.
  - exists []. repeat split.
  - constructor.
  - constructor.
  - reflexivity.
  - reflexivity.
  - intros t p Ht. split; [exact (proj1 (Forall_lookup _ _) G t p Ht)|].
    now exists p.
  - auto.
Qed.

Lemma held_command (s : state) (held : list frame) (f : frame) :
  Forall (fun f => is_command f = true) (enqueued s) ->
  transmitted s ++ held ++ queue s = enqueued s ->
  f ∈ held ++ queue s -> is_command f = true.
Proof.
  intros C E Hin. rewrite <- E in C.
  apply Forall_app in C as [_ C].
  exact (proj1 (Forall_forall _ _) C f Hin).
Qed.

Ltac views :=
  unfold holds, in_flight, transmitted, keep_alives, enqueued, enqueued_by,
         pending in *; simpl in *.

Lemma filter_snoc_command (l : list frame) (f : frame) :
  is_command f = true ->
  List.filter is_command (l ++ [f]) = List.filter is_command l ++ [f].
Proof. intros H. rewrite List.filter_app. simpl. now rewrite H. Qed.

Lemma filter_snoc_keep_alive (l : list frame) :
  List.filter is_command (l ++ [keep_alive]) = List.filter is_command l.
Proof. rewrite List.filter_app. simpl. apply app_nil_r. Qed.

Lemma invariant_worker (progs : list prog) (ok : bool) (s s' : state) :
  invariant progs s -> worker_step ok s = Some s' -> invariant progs s'.
Proof.
  intros [(held & Hh & Hf & Hu) C L X N O K] H.
  destruct s as [nw q u st rd pt p cn lk bl ct cs en].
  unfold worker_step, crash, set_pc in H. views.
  destruct p; simpl in *.
  - (* WStart *)
    injection H as <-. constructor; views; auto. now exists held.
  - (* WConnect *)
    destruct ok; injection H as <-; constructor; views; auto; subst held.
    + now exists [].
    + exists []. simpl. auto.
  - (* WLoop *)
    destruct st; injection H as <-; constructor; views; auto;
      now exists held.
  - (* WPoll *)
    destruct q as [|f q]; injection H as <-; constructor; views; auto;
      subst held.
    + now exists [].
    + exists [f]. simpl in *. repeat split; auto; try lia.
  - (* WGot *)
    injection H as <-. constructor; views; auto. now exists held.
  - (* WWrite *)
    assert (Hc : is_command f = true).
    { subst held. rewrite <- Hf in C. apply Forall_app in C as [_ C].
      now inversion C. }
    destruct ok; injection H as <-; constructor; views; auto; subst held.
    + exists []. rewrite filter_snoc_command by exact Hc.
      rewrite <- app_assoc. simpl in *. repeat split; auto; try lia.
    + apply Forall_app. split; [exact L|]. constructor; [now left|constructor].
    + exists [f]. simpl. repeat split; auto.
  - (* WTaskDone *)
    subst held. simpl in *.
    destruct u as [|u]; [lia|].
    injection H as <-. constructor; views; auto.
    exists []. simpl. repeat split; auto; try lia.
  - (* WIdle *)
    destruct (PrimFloat.ltb _ _); injection H as <-; constructor; views; auto;
      now exists held.
  - (* WKeepAlive *)
    destruct ok; injection H as <-; constructor; views; auto; subst held.
    + exists []. rewrite filter_snoc_keep_alive. auto.
    + apply Forall_app. split; [exact L|]. constructor; [now right|constructor].
    + exists []. simpl. auto.
  - (* WStamp *)
    injection H as <-. constructor; views; auto. now exists held.
  - (* WClose *)
    injection H as <-. constructor; views; auto. now exists held.
  - discriminate.
  - discriminate.
Qed.

Lemma enqueued_by_other (t t' : nat) (f : frame) (en : list (nat * frame)) :
  t' <> t ->
  List.filter (fun e => Nat.eqb (fst e) t') (en ++ [(t, f)])
  = List.filter (fun e => Nat.eqb (fst e) t') en.
Proof.
  intros H. rewrite List.filter_app. simpl.
  destruct (Nat.eqb_spec t t'); [congruence|apply app_nil_r].
Qed.

Lemma enqueued_by_self (t : nat) (f : frame) (en : list (nat * frame)) :
  List.filter (fun e => Nat.eqb (fst e) t) (en ++ [(t, f)])
  = List.filter (fun e => Nat.eqb (fst e) t) en ++ [(t, f)].
Proof. rewrite List.filter_app. simpl. now rewrite Nat.eqb_refl. Qed.

(** A caller thread replaces its program [p] by the rest [k], having
    enqueued the frames [fs]. *)
Lemma order_update (progs cs : list prog) (en : list (nat * frame))
      (t : nat) (p k : prog) (fs : list frame) :
  cs !! t = Some p ->
  (good p -> good k /\ fs ++ puts k = puts p) ->
  (forall t' p', cs !! t' = Some p' ->
     good p' /\
     exists p0, progs !! t' = Some p0 /\
       map snd (List.filter (fun e => Nat.eqb (fst e) t') en) ++ puts p'
       = puts p0) ->
  forall t' p', <[t := k]> cs !! t' = Some p' ->
     good p' /\
     exists p0, progs !! t' = Some p0 /\
       map snd (List.filter (fun e => Nat.eqb (fst e) t')
                            (en ++ map (pair t) fs)) ++ puts p'
       = puts p0.
Proof.
  intros Ht Hk O t' p' H.
  destruct (decide (t' = t)) as [->|Hne].
  - rewrite list_lookup_insert_eq in H by (eapply lookup_lt_Some; eauto).
    injection H as <-.
    destruct (O t p Ht) as (G & p0 & Hp0 & E).
    destruct (Hk G) as (Gk & Ek). split; [exact Gk|].
    exists p0. split; [exact Hp0|].
    rewrite <- E, <- Ek, List.filter_app, map_app, <- app_assoc.
    f_equal. f_equal.
    clear. induction fs as [|f fs IH]; simpl; [reflexivity|].
    rewrite Nat.eqb_refl. simpl. now rewrite IH.
  - rewrite list_lookup_insert_ne in H by congruence.
    destruct (O t' p' H) as (G & p0 & Hp0 & E).
    split; [exact G|]. exists p0. split; [exact Hp0|].
    rewrite <- E. f_equal. f_equal. rewrite List.filter_app.
    replace (List.filter _ (map (pair t) fs)) with (@nil (nat * frame));
      [apply app_nil_r|].
    clear -Hne. induction fs as [|f fs IH]; simpl; [reflexivity|].
    destruct (Nat.eqb_spec t t'); [congruence|exact IH].
Qed.

Lemma invariant_caller (progs : list prog) (t : nat) (s s' : state) :
  invariant progs s -> caller_step t s = Some s' -> invariant progs s'.
Proof.
  intros [(held & Hh & Hf & Hu) C L X N O K] H.
  destruct s as [nw q u st rd pt p cn lk bl ct cs en].
  unfold caller_step, set_caller in H. views.
  destruct ct as [b|]; [discriminate|].
  destruct (cs !! t) as [pr|] eqn:Ht; [|discriminate].
  destruct pr as [|e|f k|k|kt kf|b k|k]; try discriminate.
  - (* QueuePut *)
    injection H as <-.
    assert (Hc : is_command f = true).
    { destruct (O t _ Ht) as ((_ & G) & _). now inversion G. }
    constructor; views; try discriminate.
    + exists held. rewrite map_app, !app_assoc, <- Hf, length_app. simpl.
      rewrite <- !app_assoc.
      repeat split; auto; try lia.
    + rewrite map_app. apply Forall_app. split; [exact C|].
      constructor; [exact Hc|constructor].
    + exact L.
    + exact X.
    + now rewrite length_insert.
    + apply (order_update progs cs en t (QueuePut f k) k [f] Ht); [|exact O].
      intros [U G]. repeat split; auto. now inversion G.
  - (* QueueJoin *)
    destruct u; [|discriminate]. injection H as <-.
    constructor; views; try discriminate; auto.
    + now exists held.
    + now rewrite length_insert.
    + intros t' p' H'.
      pose proof (order_update progs cs en t (QueueJoin k) k [] Ht) as R.
      simpl in R. rewrite app_nil_r in R. apply R; auto.
  - (* IfBlocking *)
    injection H as <-.
    constructor; views; try discriminate; auto.
    + now exists held.
    + now rewrite length_insert.
    + intros t' p' H'.
      pose proof (order_update progs cs en t (IfBlocking kt kf)
                               (if bl then kt else kf) [] Ht) as R.
      simpl in R. rewrite app_nil_r in R. apply R; auto.
      intros [(E & Ut & Uf) G]. simpl in G.
      destruct bl; repeat split; auto. now rewrite <- E.
  - (* SetBlocking *)
    injection H as <-.
    constructor; views; try discriminate; auto.
    + now exists held.
    + now rewrite length_insert.
    + intros t' p' H'.
      pose proof (order_update progs cs en t (SetBlocking b k) k [] Ht) as R.
      simpl in R. rewrite app_nil_r in R. apply R; auto.
  - (* StopWork *)
    injection H as <-.
    constructor; views; try discriminate; auto.
    + now exists held.
    + now rewrite length_insert.
    + intros t' p' H'.
      pose proof (order_update progs cs en t (StopWork k) k [] Ht) as R.
      simpl in R. rewrite app_nil_r in R. apply R; auto.
Qed.

Lemma invariant_step (progs : list prog) (c : choice) (s s' : state) :
  invariant progs s -> step c s = Some s' -> invariant progs s'.
Proof.
  intros I H. destruct c as [t|ok| |t]; simpl in H.
  - destruct (PrimFloat.leb (now s) t); [|discriminate]. injection H as <-.
    destruct I as [F C L X N O K]. constructor; auto.
  - eapply invariant_worker; eauto.
  - unfold init_step in H. destruct (ctor s) as [b|] eqn:E; [|discriminate].
    destruct (b && negb (ready s)); injection H as <-; [exact I|].
    destruct I as [F C L X N O K]. constructor; auto. discriminate.
  - eapply invariant_caller; eauto.
Qed.

Lemma reachable_invariant (block : bool) (progs : list prog) (s : state) :
  Forall good progs -> reachable block progs s -> invariant progs s.
Proof.
  intros G R. induction R as [|c s s' _ IH H].
  - now apply invariant_init.
  - eapply invariant_step; eauto.
Qed.
Lemma run_reachable (block : bool) (progs : list prog) (sched : list choice)
      (s s' : state) :
  reachable block progs s -> run sched s = Some s' -> reachable block progs s'.
Proof.
  revert s. induction sched as [|c sched IH]; simpl; intros s R H.
  - now injection H as <-.
  - destruct (step c s) as [s1|] eqn:E; [|discriminate].
    apply (IH s1); [|exact H]. now apply (reach_step _ _ c s).
Qed.

Lemma run_from_init (block : bool) (progs : list prog) (sched : list choice)
      (s : state) :
  run sched (init block progs) = Some s -> reachable block progs s.
Proof. apply run_reachable. constructor. Qed.

Lemma Forall_api_good (progs : list prog) : Forall api progs -> Forall good progs.
Proof. intros H. eapply Forall_impl; [exact H|exact api_good]. Qed.

(* ================================================================== *)
(** ** FIFO order *)
(* ================================================================== *)

Lemma run_app (a b : list choice) (s : state) :
  run (a ++ b) s
  = match run a s with Some s1 => run b s1 | None => None end.
Proof.
  revert s. induction a as [|c a IH]; simpl; intros s; [reflexivity|].
  destruct (step c s); [apply IH|reflexivity].
Qed.

Lemma invariant_run (progs : list prog) (sched : list choice) (s s' : state) :
  invariant progs s -> run sched s = Some s' -> invariant progs s'.
Proof.
  revert s. induction sched as [|c sched IH]; simpl; intros s I H.
  - now injection H as <-.
  - destruct (step c s) as [s1|] eqn:E; [|discriminate].
    apply (IH s1); [|exact H]. exact (invariant_step progs c s s1 I E).
Qed.

(** One turn of the worker's loop on a queue that is not empty: the
    oldest frame is written, marked done, and nothing else. *)
Lemma turn_transmits (progs : list prog) (s : state) (f : frame)
      (q : list frame) :
  invariant progs s -> pc s = WLoop -> stop s = false -> queue s = f :: q ->
  exists s',
    run transmit s = Some s' /\
    link s' = link s ++ [f] /\ prev_time s' = now s /\ queue s' = q /\
    pc s' = WLoop /\ stop s' = false /\ is_command f = true.
Proof.
  intros [(held & Hh & Hf & Hu) C L X N O K] Hpc Hs Hq.
  assert (Hc : is_command f = true).
  { apply (held_command s held f C Hf). rewrite Hq.
    apply elem_of_app. right. constructor. }
  assert (Hu' : exists n, unfinished s = S n).
  { rewrite Hu, Hq, Hpc. simpl. exists (length held + length q)%nat. lia. }
  destruct Hu' as [n Hn].
  eexists. simpl. unfold worker_step, set_pc. simpl.
  rewrite Hpc, Hs. simpl. rewrite Hq. simpl. rewrite Hn.
  split; [reflexivity|]. simpl. repeat split; auto.
Qed.

(** Left to run, the worker writes the whole queue, oldest frame first. *)
Lemma worker_drains (progs : list prog) (q : list frame) (s : state) :
  invariant progs s -> pc s = WLoop -> stop s = false -> queue s = q ->
  exists s',
    run (concat (repeat transmit (length q))) s = Some s' /\
    link s' = link s ++ q /\ queue s' = [] /\
    Forall (fun f => is_command f = true) q.
Proof.
  revert s. induction q as [|f q IH]; intros s I Hpc Hs Hq.
  - exists s. simpl. rewrite app_nil_r. auto.
  - destruct (turn_transmits progs s f q I Hpc Hs Hq)
      as (s1 & Hr & Hl & _ & Hq1 & Hpc1 & Hs1 & Hc).
    destruct (IH s1 (invariant_run progs transmit s s1 I Hr) Hpc1 Hs1 Hq1)
      as (s' & Hr' & Hl' & Hq' & Hc').
    exists s'. split.
    + change (concat (repeat transmit (length (f :: q))))
        with (transmit ++ concat (repeat transmit (length q))).
      now rewrite run_app, Hr.
    + rewrite Hl', Hl, <- app_assoc. auto.
Qed.

(** C6: the command frames on the link are, in order and one for one,
    the first frames enqueued: with the frame the worker holds and the
    frames still queued they make up exactly the sequence enqueued, so
    nothing is reordered, dropped in between or merged; left to run,
    the worker writes all of them.  With several caller threads, what
    each thread enqueued (and what of it was transmitted) follows that
    thread's own program order. *)
Theorem fifo_order (block : bool) (progs : list prog) (s : state) :
  Forall api progs -> reachable block progs s ->
  (exists held,
     holds s held /\ transmitted s ++ held ++ queue s = enqueued s) /\
  transmitted s `prefix_of` enqueued s /\
  (pc s = WLoop -> stop s = false ->
   exists s',
     run (concat (repeat transmit (length (queue s)))) s = Some s' /\
     transmitted s' = enqueued s /\ queue s' = []) /\
  forall t p0, progs !! t = Some p0 ->
    transmitted_by t s `prefix_of` enqueued_by t s /\
    enqueued_by t s `prefix_of` puts p0.
Proof.
  intros A R.
  pose proof (reachable_invariant block progs s (Forall_api_good _ A) R) as I.
  destruct I as [(held & Hh & Hf & Hu) C L X N O K] eqn:EI. clear EI.
  split; [|split; [|split]].
  - now exists held.
  - exists (held ++ queue s). now rewrite Hf.
  - intros Hpc Hs.
    destruct (worker_drains progs (queue s) s I Hpc Hs eq_refl)
      as (s' & Hr & Hl & Hq & Hc).
    exists s'. split; [exact Hr|]. split; [|exact Hq].
    unfold holds, in_flight in Hh. rewrite Hpc in Hh. subst held.
    rewrite <- Hf. unfold transmitted. rewrite Hl, List.filter_app.
    simpl. f_equal. clear -Hc.
    induction Hc as [|f q Hf _ IH]; simpl; [reflexivity|].
    now rewrite Hf, IH.
  - intros t p0 Ht. split.
    + unfold transmitted_by, enqueued_by.
      exists (map snd (List.filter (fun e => Nat.eqb (fst e) t)
                                   (drop (length (transmitted s)) (enq s)))).
      rewrite <- map_app, <- List.filter_app. now rewrite take_drop.
    + assert (Hlt : (t < length (callers s))%nat).
      { rewrite N. eapply lookup_lt_Some. exact Ht. }
      destruct (lookup_lt_is_Some_2 _ _ Hlt) as [p Hp].
      destruct (O t p Hp) as (_ & p0' & Hp0 & E).
      rewrite Ht in Hp0. injection Hp0 as <-.
      exists (puts p). now rewrite E.
Qed.

Lemma fifo_order_witness :
  exists s,
    run interleaved (init true two_callers) = Some s /\
    (exists held,
       holds s held /\ transmitted s ++ held ++ queue s = enqueued s) /\
    transmitted s `prefix_of` enqueued s /\
    (pc s = WLoop -> stop s = false ->
     exists s',
       run (concat (repeat transmit (length (queue s)))) s = Some s' /\
       transmitted s' = enqueued s /\ queue s' = []) /\
    forall t p0,
      two_callers !! t = Some p0 ->
      transmitted_by t s `prefix_of` enqueued_by t s /\
      enqueued_by t s `prefix_of` puts p0.
Proof.
  eexists. split; [vm_compute; reflexivity|].
  apply (fifo_order true).
  - repeat constructor.
  - apply (run_from_init true two_callers interleaved). vm_compute. reflexivity.
Defined.

(* ================================================================== *)
(** ** What the queue holds *)
(* ================================================================== *)





(* ================================================================== *)
(** ** The blocking contract *)
(* ================================================================== *)

Lemma step_link (c : choice) (s s' : state) :
  step c s = Some s' ->
  link s' = link s \/
  (inside (pc s) = true /\ exists f, link s' = link s ++ [f]).
Proof.
  destruct c as [t|ok| |t]; simpl.
  - destruct (PrimFloat.leb _ _); [|discriminate]. intros [= <-]. now left.
  - unfold worker_step, crash, set_pc.
    destruct (pc s) eqn:E; try destruct ok; try destruct (queue s);
      try destruct (unfinished s); try discriminate; intros [= <-]; simpl;
      try (now left); right; (split; [reflexivity|eexists; reflexivity]).
  - unfold init_step. destruct (ctor s); [|discriminate].
    destruct (_ && _); intros [= <-]; now left.
  - unfold caller_step, set_caller. destruct (ctor s); [discriminate|].
    destruct (callers s !! t) as [[]|]; try discriminate;
      try destruct (unfinished s); try discriminate; intros [= <-]; now left.
Qed.

Lemma run_link (sched : list choice) (s s' : state) :
  run sched s = Some s' -> link s `prefix_of` link s'.
Proof.
  revert s. induction sched as [|c sched IH]; simpl; intros s H.
  - now injection H as <-.
  - destruct (step c s) as [s1|] eqn:E; [|discriminate].
    etransitivity; [|apply (IH s1 H)].
    destruct (step_link c s s1 E) as [->|(_ & f & ->)];
      [reflexivity|now exists [f]].
Qed.

Lemma filter_prefix {A : Type} (P : A -> bool) (l1 l2 : list A) :
  l1 `prefix_of` l2 -> List.filter P l1 `prefix_of` List.filter P l2.
Proof. intros [k ->]. exists (List.filter P k). apply List.filter_app. Qed.

(** A worker that has left [work()] writes nothing more. *)
Lemma run_after_exit (sched : list choice) (s s' : state) :
  pc s = WExited \/ pc s = WFailed -> run sched s = Some s' ->
  link s' = link s /\ pc s' = pc s.
Proof.
  revert s. induction sched as [|c sched IH]; simpl; intros s Hpc H.
  - now injection H as <-.
  - destruct (step c s) as [s1|] eqn:E; [|discriminate].
    assert (E1 : link s1 = link s /\ pc s1 = pc s).
    { destruct c as [t|ok| |t]; simpl in E.
      - destruct (PrimFloat.leb _ _); [|discriminate]. now injection E as <-.
      - unfold worker_step in E. destruct Hpc as [Hpc|Hpc]; rewrite Hpc in E;
          discriminate.
      - unfold init_step in E. destruct (ctor s); [|discriminate].
        destruct (_ && _); now injection E as <-.
      - unfold caller_step, set_caller in E. destruct (ctor s); [discriminate|].
        destruct (callers s !! t) as [[]|]; try discriminate;
          try destruct (unfinished s); try discriminate;
          now injection E as <-. }
    destruct E1 as [El Ep].
    destruct (IH s1) as [Hl Hp]; [now rewrite Ep|exact H|].
    split; congruence.
Qed.

Lemma join_drained (progs : list prog) (s : state) :
  invariant progs s -> unfinished s = 0%nat -> transmitted s = enqueued s.
Proof.
  intros [(held & Hh & Hf & Hu) _ _ _ _ _ _] U.
  assert (Hq : queue s = []) by (apply length_zero_iff_nil; lia).
  assert (Hn : held = []) by (apply length_zero_iff_nil; lia).
  subst held. rewrite Hq in Hf. simpl in Hf. now rewrite app_nil_r in Hf.
Qed.

Lemma step_enqueued (c : choice) (s s' : state) :
  step c s = Some s' -> enqueued s `prefix_of` enqueued s'.
Proof.
  unfold enqueued. destruct c as [t|ok| |t]; simpl.
  - destruct (PrimFloat.leb _ _); [|discriminate]. now intros [= <-].
  - unfold worker_step, crash, set_pc.
    destruct (pc s) eqn:E; try destruct ok; try destruct (queue s);
      try destruct (unfinished s); try discriminate; now intros [= <-].
  - unfold init_step. destruct (ctor s); [|discriminate].
    destruct (_ && _); now intros [= <-].
  - unfold caller_step, set_caller. destruct (ctor s); [discriminate|].
    destruct (callers s !! t) as [[]|]; try discriminate;
      try destruct (unfinished s); try discriminate; intros [= <-]; simpl;
      try reflexivity.
    all: rewrite ?map_app; now eexists.
Qed.

Lemma run_enqueued (sched : list choice) (s s' : state) :
  run sched s = Some s' -> enqueued s `prefix_of` enqueued s'.
Proof.
  revert s. induction sched as [|c sched IH]; simpl; intros s H.
  - now injection H as <-.
  - destruct (step c s) as [s1|] eqn:E; [|discriminate].
    etransitivity; [exact (step_enqueued c s s1 E)|exact (IH s1 H)].
Qed.

(** C7: the blocking flag is on when the constructor returns.  After
    its [put], a send tests the flag: on, it goes on to [join]; off, it
    returns at once, whatever the queue holds.  A [join] returns only in
    a state where every frame enqueued so far, the caller's own
    included, is on the link, and those frames are on the link in every
    later state: a caller that waits for the drain and then disconnects
    closes a connection over which all of them were sent.  Frames are
    written only over an open connection.  The [put] of a send appends
    the send's own frame to the queue and to the frames enqueued, so
    when the [join] of that send returns, the frames enqueued before the
    call and the frame of the call itself are on the link. *)
Theorem blocking_contract (block : bool) (progs : list prog) (s : state)
        (t : nat) (k : prog) :
  Forall api progs -> reachable block progs s ->
  (forall s', step Init s = Some s' -> ctor s' = None -> blocking s' = true) /\
  (ctor s = None -> callers s !! t = Some (IfBlocking (QueueJoin k) k) ->
   step (Caller t) s
   = Some (set_caller s t (if blocking s then QueueJoin k else k))) /\
  (callers s !! t = Some (QueueJoin k) ->
   forall s1, step (Caller t) s = Some s1 ->
     transmitted s = enqueued s /\ queue s = [] /\
     forall sched s', run sched s1 = Some s' ->
       enqueued s `prefix_of` transmitted s') /\
  (forall c s', step c s = Some s' -> link s' <> link s -> connected s = true) /\
  (forall cmd payload f, ctor s = None ->
   callers s !! t = Some (_send cmd payload k) ->
   build_frame cmd payload = inr f ->
   exists s1,
     step (Caller t) s = Some s1 /\
     queue s1 = queue s ++ [f] /\ enqueued s1 = enqueued s ++ [f] /\
     callers s1 !! t = Some (IfBlocking (QueueJoin k) k) /\
     forall sched s2 s3, run sched s1 = Some s2 ->
       callers s2 !! t = Some (QueueJoin k) ->
       step (Caller t) s2 = Some s3 ->
       (enqueued s ++ [f]) `prefix_of` transmitted s2 /\
       f ∈ transmitted s2).
Proof.
  intros A R.
  pose proof (reachable_invariant block progs s (Forall_api_good _ A) R) as I.
  destruct I as [(held & Hh & Hf & Hu) C L X N O K] eqn:EI. clear EI.
  split; [|split; [|split; [|split]]].
  - intros s' H Hc. simpl in H. unfold init_step in H.
    destruct (ctor s) eqn:E; [|discriminate].
    destruct (_ && _); injection H as <-; [|reflexivity].
    congruence.
  - intros Hc Ht. simpl. unfold caller_step. now rewrite Hc, Ht.
  - intros Ht s1 H.
    assert (H' := H). simpl in H'. unfold caller_step in H'.
    destruct (ctor s); [discriminate|]. rewrite Ht in H'.
    destruct (unfinished s) eqn:U; [|discriminate].
    assert (Hq : queue s = []) by (apply length_zero_iff_nil; lia).
    assert (Hn : held = []) by (apply length_zero_iff_nil; lia).
    subst held. rewrite Hq in Hf. simpl in Hf. rewrite app_nil_r in Hf.
    split; [exact Hf|]. split; [exact Hq|].
    intros sched s' Hr. rewrite <- Hf.
    apply filter_prefix. change (link s `prefix_of` link s').
    apply (run_link (Caller t :: sched)). simpl. simpl in H. now rewrite H.
  - intros c s' H Hne. rewrite X.
    destruct (step_link c s s' H) as [E|(Hi & _)]; [contradiction|exact Hi].
  - intros cmd payload f Hc Ht E. unfold _send in Ht. rewrite E in Ht.
    assert (Hlt : (t < length (callers s))%nat)
      by (eapply lookup_lt_Some; exact Ht).
    assert (S1 : exists s1, step (Caller t) s = Some s1 /\
                   queue s1 = queue s ++ [f] /\
                   enqueued s1 = enqueued s ++ [f] /\
                   callers s1 !! t = Some (IfBlocking (QueueJoin k) k)).
    { eexists. split; [simpl; unfold caller_step; rewrite Hc, Ht; reflexivity|].
      split; [reflexivity|]. split.
      - unfold enqueued. simpl. now rewrite map_app.
      - simpl. now rewrite list_lookup_insert_eq by exact Hlt. }
    destruct S1 as (s1 & H1 & Hq1 & He1 & Hc1).
    exists s1. split; [exact H1|]. split; [exact Hq1|].
    split; [exact He1|]. split; [exact Hc1|].
    intros sched s2 s3 Hr Hj Hs3.
    assert (R2 : reachable block progs s2).
    { apply (run_reachable block progs sched s1); [|exact Hr].
      now apply (reach_step _ _ (Caller t) s). }
    pose proof (reachable_invariant block progs s2 (Forall_api_good _ A) R2)
      as I2.
    assert (U : unfinished s2 = 0%nat).
    { simpl in Hs3. unfold caller_step in Hs3.
      destruct (ctor s2); [discriminate|]. rewrite Hj in Hs3.
      destruct (unfinished s2); [reflexivity|discriminate]. }
    assert (P : (enqueued s ++ [f]) `prefix_of` transmitted s2).
    { rewrite (join_drained progs s2 I2 U), <- He1.
      now apply (run_enqueued sched). }
    split; [exact P|].
    destruct P as [rest ->]. apply elem_of_app. left.
    apply elem_of_app. right. constructor.
Qed.

Lemma blocking_contract_witness :
  (exists s,
     run blocking_send (init true [turn_on Return]) = Some s /\
     callers s !! 0%nat = Some (QueueJoin Return) /\
     step (Caller 0%nat) s = Some (set_caller s 0%nat Return) /\
     transmitted s = enqueued s /\ queue s = []) /\
  (exists s,
     run startup (init true [turn_on Return]) = Some s /\
     exists s1,
       step (Caller 0%nat) s = Some s1 /\
       queue s1
       = queue s ++ [[51; 1; 1; 0; 0; 0; 0; 0; 0; 0; 0; 0; 0; 0; 0; 0; 0; 0; 0; 51]] /\
       enqueued s1
       = enqueued s ++ [[51; 1; 1; 0; 0; 0; 0; 0; 0; 0; 0; 0; 0; 0; 0; 0; 0; 0; 0; 51]] /\
       callers s1 !! 0%nat = Some (IfBlocking (QueueJoin Return) Return) /\
       forall sched s2 s3, run sched s1 = Some s2 ->
         callers s2 !! 0%nat = Some (QueueJoin Return) ->
         step (Caller 0%nat) s2 = Some s3 ->
         (enqueued s ++ [[51; 1; 1; 0; 0; 0; 0; 0; 0; 0; 0; 0; 0; 0; 0; 0; 0; 0; 0; 51]])
           `prefix_of` transmitted s2 /\
         [51; 1; 1; 0; 0; 0; 0; 0; 0; 0; 0; 0; 0; 0; 0; 0; 0; 0; 0; 51]
           ∈ transmitted s2).
Proof.
  split.
  - eexists. split; [vm_compute; reflexivity|].
    split; [reflexivity|]. split; [reflexivity|].
    match goal with
    | |- transmitted ?S = _ /\ _ =>
        destruct (blocking_contract true [turn_on Return] S 0%nat Return)
          as (_ & _ & H & _)
    end.
    + repeat constructor.
    + apply (run_from_init true [turn_on Return] blocking_send).
      vm_compute. reflexivity.
    + destruct (H eq_refl _ eq_refl) as (H1 & H2 & _). exact (conj H1 H2).
  - eexists. split; [vm_compute; reflexivity|].
    match goal with
    | |- exists s1, step _ ?S = _ /\ _ =>
        destruct (blocking_contract true [turn_on Return] S 0%nat Return)
          as (_ & _ & _ & _ & H)
    end.
    + repeat constructor.
    + apply (run_from_init true [turn_on Return] startup).
      vm_compute. reflexivity.
    + apply (H (Int 1) (List [Int 1])); reflexivity.
Defined.

(* ================================================================== *)
(** ** Sending after [disconnect] *)
(* ================================================================== *)

Lemma bytes_of_ints_errors (xs : list obj) (e : exn) :
  bytes_of_ints xs = inl e -> e = BytesOutOfRange \/ e = InvalidPayload.
Proof.
  induction xs as [|x xs IH]; simpl; [discriminate|].
  destruct x; try (intros [= <-]; now right).
  destruct (_ && _); [|intros [= <-]; now left].
  destruct (bytes_of_ints xs); [|discriminate].
  intros [= <-]. now apply IH.
Qed.

(** The exceptions of [_send]: its own three and the one of [bytes]. *)
Lemma build_frame_errors (cmd payload : obj) (e : exn) :
  build_frame cmd payload = inl e ->
  e = InvalidCommand \/ e = InvalidPayload \/ e = PayloadTooLong \/
  e = BytesOutOfRange.
Proof.
  unfold build_frame.
  destruct cmd; try (intros [= <-]; now left).
  destruct (negb _); [intros [= <-]; auto|].
  destruct (17 <? _); [intros [= <-]; auto|].
  destruct (bytes payload) as [e'|] eqn:E; [|discriminate].
  intros [= <-].
  destruct payload; simpl in E; try discriminate;
    try (injection E as <-; now auto).
  destruct (bytes_of_ints_errors _ _ E) as [->| ->]; auto.
Qed.

(** The count of unfinished items goes down only by the worker. *)
Lemma run_unfinished_after_exit (sched : list choice) (s s' : state) :
  pc s = WExited \/ pc s = WFailed -> run sched s = Some s' ->
  (unfinished s <= unfinished s')%nat.
Proof.
  revert s. induction sched as [|c sched IH]; simpl; intros s Hpc H.
  - injection H as <-. lia.
  - destruct (step c s) as [s1|] eqn:E; [|discriminate].
    assert (E1 : pc s1 = pc s /\ (unfinished s <= unfinished s1)%nat).
    { destruct c as [t|ok| |t]; simpl in E.
      - destruct (PrimFloat.leb _ _); [|discriminate]. injection E as <-. auto.
      - unfold worker_step in E. destruct Hpc as [Hpc|Hpc]; rewrite Hpc in E;
          discriminate.
      - unfold init_step in E. destruct (ctor s); [|discriminate].
        destruct (_ && _); injection E as <-; auto.
      - unfold caller_step, set_caller in E. destruct (ctor s); [discriminate|].
        destruct (callers s !! t) as [[]|]; try discriminate;
          try destruct (unfinished s) eqn:U; try discriminate;
          injection E as <-; simpl; rewrite ?U; auto. }
    destruct E1 as [Ep Eu].
    specialize (IH s1). rewrite Ep in IH. specialize (IH Hpc H). lia.
Qed.

(** Against C8 as stated: after [disconnect()] and the worker's exit, a
    send returns with no exception; its frame stays in the queue and is
    never written. *)
Lemma send_after_disconnect_returns :
  option_map (fun s => (stop s, pc s, callers s, queue s, link s))
             (run after_disconnect (init true send_after_disconnect))
  = Some (true, WExited, [Return],
          [[51; 1; 1; 0; 0; 0; 0; 0; 0; 0; 0; 0; 0; 0; 0; 0; 0; 0; 0; 51]],
          []).
Proof. vm_compute. reflexivity. Qed.

(** C8 (amended): after [disconnect()] a further send does not fail
    because of the disconnect.  [_send] never looks at the worker: it
    raises only its validation errors, and otherwise enqueues its frame
    and tests the blocking flag as before.  Once the worker has left
    [work()] the frame is never written and the count of unfinished
    items never returns to zero: with blocking off the send returns, with
    blocking on it stays in [join]. *)
Theorem send_when_stopped (s : state) (t : nat) (cmd payload : obj) (k : prog) :
  stop s = true -> ctor s = None ->
  callers s !! t = Some (_send cmd payload k) ->
  (forall e, build_frame cmd payload = inl e ->
     callers s !! t = Some (Raise e) /\
     (e = InvalidCommand \/ e = InvalidPayload \/ e = PayloadTooLong \/
      e = BytesOutOfRange)) /\
  (forall f, build_frame cmd payload = inr f ->
     exists s1 s2,
       step (Caller t) s = Some s1 /\ queue s1 = queue s ++ [f] /\
       step (Caller t) s1 = Some s2 /\
       callers s2 !! t = Some (if blocking s then QueueJoin k else k) /\
       queue s2 = queue s ++ [f] /\
       (pc s = WExited \/ pc s = WFailed ->
        forall sched s', run sched s2 = Some s' ->
          link s' = link s /\ unfinished s' <> 0%nat /\
          forall t' k', callers s' !! t' = Some (QueueJoin k') ->
                        step (Caller t') s' = None)).
Proof.
  intros Hs Hc Ht. unfold _send in Ht. split.
  - intros e E. rewrite E in Ht. split; [exact Ht|].
    exact (build_frame_errors _ _ _ E).
  - intros f E. rewrite E in Ht.
    assert (Hlt : (t < length (callers s))%nat)
      by (eapply lookup_lt_Some; exact Ht).
    eexists. eexists.
    split; [simpl; unfold caller_step; rewrite Hc, Ht; reflexivity|].
    split; [reflexivity|].
    split.
    { simpl. unfold caller_step. simpl. rewrite ?Hc.
      rewrite list_lookup_insert_eq by exact Hlt. reflexivity. }
    split.
    { simpl. rewrite list_lookup_insert_eq; [reflexivity|].
      now rewrite length_insert. }
    split; [reflexivity|].
    intros Hpc sched s' Hr.
    match type of Hr with run _ ?S2 = _ =>
      assert (Hpc2 : pc S2 = WExited \/ pc S2 = WFailed) by exact Hpc;
      pose proof (run_after_exit sched S2 s' Hpc2 Hr) as [Hl _];
      pose proof (run_unfinished_after_exit sched S2 s' Hpc2 Hr) as Hu
    end.
    simpl in Hl, Hu. split; [exact Hl|]. split; [lia|].
    intros t' k' Ht'. simpl. unfold caller_step.
    destruct (ctor s'); [reflexivity|]. rewrite Ht'.
    destruct (unfinished s'); [lia|reflexivity].
Qed.

Lemma send_when_stopped_witness :
  exists s,
    run stopped (init true send_after_disconnect) = Some s /\
    forall f, build_frame (Int 1) (List [Int 1]) = inr f ->
      exists s1 s2,
        step (Caller 0%nat) s = Some s1 /\ queue s1 = queue s ++ [f] /\
        step (Caller 0%nat) s1 = Some s2 /\
        callers s2 !! 0%nat
        = Some (if blocking s then QueueJoin Return else Return) /\
        queue s2 = queue s ++ [f] /\
        (pc s = WExited \/ pc s = WFailed ->
         forall sched s', run sched s2 = Some s' ->
           link s' = link s /\ unfinished s' <> 0%nat /\
           forall t' k', callers s' !! t' = Some (QueueJoin k') ->
                         step (Caller t') s' = None).
Proof.
  eexists. split; [vm_compute; reflexivity|].
  apply (send_when_stopped _ 0%nat (Int 1) (List [Int 1]) Return);
    reflexivity.
Defined.

(* ================================================================== *)
(** ** A connection that cannot be established *)
(* ================================================================== *)





(* ================================================================== *)
(** ** Keep-alive frames *)
(* ================================================================== *)

Lemma step_writes (c : choice) (s s' : state) :
  step c s = Some s' ->
  link s' = link s \/
  (exists f, pc s = WWrite f /\ link s' = link s ++ [f]) \/
  (pc s = WKeepAlive /\ link s' = link s ++ [keep_alive]).
Proof.
  destruct c as [t|ok| |t]; simpl.
  - destruct (PrimFloat.leb _ _); [|discriminate]. intros [= <-]. now left.
  - unfold worker_step, crash, set_pc.
    destruct (pc s) eqn:E; try destruct ok; try destruct (queue s);
      try destruct (unfinished s); try discriminate; intros [= <-]; simpl;
      try (now left); right;
      first [left; eexists; split; reflexivity|right; split; reflexivity].
  - unfold init_step. destruct (ctor s); [|discriminate].
    destruct (_ && _); intros [= <-]; now left.
  - unfold caller_step, set_caller. destruct (ctor s); [discriminate|].
    destruct (callers s !! t) as [[]|]; try discriminate;
      try destruct (unfinished s); try discriminate; intros [= <-]; now left.
Qed.

(** The worker comes to the write of a keep-alive only from the test
    of line 40, and only when that test held: the binary64 sum
    [prev_time + 3] was below the reading of the clock. *)
Lemma keep_alive_entry (c : choice) (s s' : state) :
  step c s = Some s' -> pc s' = WKeepAlive ->
  pc s = WKeepAlive \/
  (exists ok, c = Worker ok) /\ pc s = WIdle /\
  PrimFloat.ltb (PrimFloat.add (prev_time s) 3%float) (now s) = true.
Proof.
  destruct c as [t|ok| |t]; simpl.
  - destruct (PrimFloat.leb _ _); [|discriminate]. intros [= <-]. now left.
  - unfold worker_step, crash, set_pc.
    destruct (pc s) eqn:E; try destruct ok; try destruct (stop s);
      try destruct (queue s); try destruct (unfinished s);
      try discriminate;
      try (intros [= <-]; simpl; discriminate).
    all: destruct (PrimFloat.ltb (PrimFloat.add (prev_time s) 3%float) (now s))
      eqn:T; intros [= <-]; simpl; [|discriminate].
    all: intros _; right; split; [eexists; reflexivity|split; reflexivity].
  - unfold init_step. destruct (ctor s); [|discriminate].
    destruct (_ && _); intros [= <-]; now left.
  - unfold caller_step, set_caller. destruct (ctor s); [discriminate|].
    destruct (callers s !! t) as [[]|]; try discriminate;
      try destruct (unfinished s); try discriminate; intros [= <-];
      now left.
Qed.

(** The worker comes to that test only from a poll that found the queue
    empty. *)
Lemma idle_entry (c : choice) (s s' : state) :
  step c s = Some s' -> pc s' = WIdle ->
  pc s = WIdle \/ (pc s = WPoll /\ queue s = []).
Proof.
  destruct c as [t|ok| |t]; simpl.
  - destruct (PrimFloat.leb _ _); [|discriminate]. intros [= <-]. now left.
  - unfold worker_step, crash, set_pc.
    destruct (pc s) eqn:E; try destruct ok; try destruct (stop s);
      try destruct (queue s) eqn:Eq; try destruct (unfinished s);
      try destruct (PrimFloat.ltb (PrimFloat.add (prev_time s) 3%float)
                                  (now s));
      try discriminate; intros [= <-]; simpl; try discriminate; auto.
  - unfold init_step. destruct (ctor s); [|discriminate].
    destruct (_ && _); intros [= <-]; now left.
  - unfold caller_step, set_caller. destruct (ctor s); [discriminate|].
    destruct (callers s !! t) as [[]|]; try discriminate;
      try destruct (unfinished s); try discriminate; intros [= <-];
      now left.
Qed.

Lemma command_is_not_keep_alive (f : frame) :
  is_command f = true -> is_keep_alive f = false.
Proof.
  destruct f as [|b f]; simpl; [reflexivity|].
  intros H. apply Z.eqb_eq in H. now subst b.
Qed.

(** Against C5 as stated: two keep-alive frames go out between two
    commands nine seconds apart, and none between two commands exactly
    three seconds apart. *)
Lemma keep_alive_counts :
  option_map link (run idle_nine_seconds (init true on_then_off))
  = Some [[51; 1; 1; 0; 0; 0; 0; 0; 0; 0; 0; 0; 0; 0; 0; 0; 0; 0; 0; 51];
          [170; 1; 0; 0; 0; 0; 0; 0; 0; 0; 0; 0; 0; 0; 0; 0; 0; 0; 0; 171];
          [170; 1; 0; 0; 0; 0; 0; 0; 0; 0; 0; 0; 0; 0; 0; 0; 0; 0; 0; 171];
          [51; 1; 0; 0; 0; 0; 0; 0; 0; 0; 0; 0; 0; 0; 0; 0; 0; 0; 0; 50]]
  /\
  option_map link (run idle_three_seconds (init true on_then_off))
  = Some [[51; 1; 1; 0; 0; 0; 0; 0; 0; 0; 0; 0; 0; 0; 0; 0; 0; 0; 0; 51];
          [51; 1; 0; 0; 0; 0; 0; 0; 0; 0; 0; 0; 0; 0; 0; 0; 0; 0; 0; 50]].
Proof. split; vm_compute; reflexivity. Qed.

(** C5 (amended): the keep-alive frame is the 20-byte frame 0xAA, 0x01,
    seventeen zero bytes and the XOR checksum 0xAB.  It is written only
    by the worker, after a poll that found the queue empty and a test
    [time() > prev_time + 3] that held, the sum being the binary64 sum
    and [prev_time] the time of the last dequeue or of the last
    keep-alive.  A turn of the worker's loop that finds the queue empty
    writes one keep-alive and restarts the window if that test holds,
    and writes nothing if it does not (as when the clock reads exactly
    [prev_time + 3]); a turn that finds a command writes that command
    and no keep-alive.  An idle period therefore yields one keep-alive
    per elapsed window, not exactly one. *)
Theorem keep_alive_policy (block : bool) (progs : list prog) (s : state) :
  Forall api progs -> reachable block progs s ->
  (keep_alive
   = [170; 1; 0; 0; 0; 0; 0; 0; 0; 0; 0; 0; 0; 0; 0; 0; 0; 0; 0; 171] /\
   keep_alive !! 19%nat = Some (Z.land (xor_fold (take 19 keep_alive)) 255)) /\
  (forall c s', step c s = Some s' -> keep_alives s' <> keep_alives s ->
     c = Worker true /\ pc s = WKeepAlive /\
     link s' = link s ++ [keep_alive] /\
     queue s' = queue s /\ unfinished s' = unfinished s) /\
  (forall c s', step c s = Some s' -> pc s' = WKeepAlive ->
     pc s = WKeepAlive \/
     (exists ok, c = Worker ok) /\ pc s = WIdle /\
     PrimFloat.ltb (PrimFloat.add (prev_time s) 3%float) (now s) = true) /\
  (forall c s', step c s = Some s' -> pc s' = WIdle ->
     pc s = WIdle \/ (pc s = WPoll /\ queue s = [])) /\
  (pc s = WLoop -> stop s = false -> queue s = [] ->
   PrimFloat.ltb (PrimFloat.add (prev_time s) 3%float) (now s) = true ->
   forall t, PrimFloat.leb (now s) t = true ->
   exists s',
     run [Worker true; Worker true; Worker true; Worker true; Tick t;
          Worker true] s = Some s' /\
     link s' = link s ++ [keep_alive] /\ prev_time s' = t /\
     pc s' = WLoop) /\
  (pc s = WLoop -> stop s = false -> queue s = [] ->
   PrimFloat.ltb (PrimFloat.add (prev_time s) 3%float) (now s) = false ->
   exists s',
     run idle_early s = Some s' /\
     link s' = link s /\ prev_time s' = prev_time s /\ pc s' = WLoop) /\
  (pc s = WLoop -> stop s = false ->
   forall f q, queue s = f :: q ->
   exists s',
     run transmit s = Some s' /\
     link s' = link s ++ [f] /\ keep_alives s' = keep_alives s /\
     prev_time s' = now s /\ queue s' = q /\ pc s' = WLoop).
Proof.
  intros A R.
  pose proof (reachable_invariant block progs s (Forall_api_good _ A) R) as I.
  destruct I as [(held & Hh & Hf & Hu) C L X N O K] eqn:EI. clear EI.
  split; [split; reflexivity|].
  split; [|split; [|split; [|split; [|split]]]].
  - intros c s' H Hne.
    destruct (step_writes c s s' H) as [E|[(f & Hpc & E)|(Hpc & E)]].
    + unfold keep_alives in Hne. now rewrite E in Hne.
    + exfalso. apply Hne. unfold keep_alives. rewrite E, List.filter_app.
      unfold holds, in_flight in Hh. rewrite Hpc in Hh. subst held.
      rewrite <- Hf in C. apply Forall_app in C as [_ C].
      inversion C as [|? ? Hc _]; subst. simpl.
      rewrite (command_is_not_keep_alive f Hc). apply app_nil_r.
    + destruct c as [t|ok| |t]; simpl in H.
      * destruct (PrimFloat.leb _ _); [|discriminate]. injection H as <-.
        exfalso. now apply Hne.
      * unfold worker_step, crash in H. rewrite Hpc in H.
        destruct ok; injection H as <-.
        -- repeat split; auto.
        -- exfalso. now apply Hne.
      * unfold init_step in H. destruct (ctor s); [|discriminate].
        destruct (_ && _); injection H as <-; exfalso; now apply Hne.
      * unfold caller_step, set_caller in H.
        destruct (ctor s); [discriminate|].
        destruct (callers s !! t) as [[]|]; try discriminate;
          try destruct (unfinished s); try discriminate;
          injection H as <-; exfalso; now apply Hne.
  - intros c s'. apply keep_alive_entry.
  - intros c s'. apply idle_entry.
  - intros Hpc Hs Hq Hlate t Ht.
    eexists. simpl. unfold worker_step, set_pc. simpl.
    rewrite Hpc, Hs. simpl. rewrite Hq. simpl. rewrite Hlate. simpl.
    rewrite Ht. simpl. split; [reflexivity|]. simpl. auto.
  - intros Hpc Hs Hq Hearly.
    eexists. simpl. unfold worker_step, set_pc. simpl.
    rewrite Hpc, Hs. simpl. rewrite Hq. simpl. rewrite Hearly. simpl.
    split; [reflexivity|]. simpl. auto.
  - intros Hpc Hs f q Hq.
    destruct (turn_transmits progs s f q I Hpc Hs Hq)
      as (s' & Hr & Hl & Hp & Hq' & Hpc' & _ & Hc).
    exists s'. repeat split; auto.
    unfold keep_alives. rewrite Hl, List.filter_app. simpl.
    rewrite (command_is_not_keep_alive f Hc). apply app_nil_r.
Qed.

(** A poll four seconds after the start writes a keep-alive; a poll at
    reading 3.1 after a start at reading 0.1 writes none, the binary64
    sum [0.1 + 3] being 3.1. *)
Lemma keep_alive_policy_witness :
  (exists s,
     run (startup ++ [Tick 4%float]) (init true on_then_off) = Some s /\
     exists s',
       run [Worker true; Worker true; Worker true; Worker true; Tick 5%float;
            Worker true] s = Some s' /\
       link s' = link s ++ [keep_alive] /\ prev_time s' = 5%float /\
       pc s' = WLoop) /\
  (exists s,
     run started_at_a_tenth (init true on_then_off) = Some s /\
     exists s',
       run idle_early s = Some s' /\
       link s' = link s /\ prev_time s' = prev_time s /\ pc s' = WLoop).
Proof.
  split.
  - eexists. split; [vm_compute; reflexivity|].
    match goal with
    | |- exists s', run _ ?S = _ /\ _ =>
        destruct (keep_alive_policy true on_then_off S)
          as (_ & _ & _ & _ & H & _)
    end.
    + repeat constructor.
    + apply (run_from_init true on_then_off (startup ++ [Tick 4%float])).
      vm_compute. reflexivity.
    + apply H; vm_compute; reflexivity.
  - eexists. split; [vm_compute; reflexivity|].
    match goal with
    | |- exists s', run _ ?S = _ /\ _ =>
        destruct (keep_alive_policy true on_then_off S)
          as (_ & _ & _ & _ & _ & H & _)
    end.
    + repeat constructor.
    + apply (run_from_init true on_then_off started_at_a_tenth).
      vm_compute. reflexivity.
    + apply H; vm_compute; reflexivity.
Defined.

(* ================================================================== *)
(** ** More on frames *)
(* ================================================================== *)

Import Routines Tools Shutdown.

Lemma lxor_byte (a b : Z) : is_byte a -> is_byte b -> is_byte (Z.lxor a b).
Proof.
  unfold is_byte. intros [Ha Ha'] [Hb Hb'].
  assert (H0 : 0 <= Z.lxor a b) by (apply Z.lxor_nonneg; tauto).
  split; [exact H0|].
  destruct (Z.eq_dec (Z.lxor a b) 0) as [->|Hne]; [lia|].
  change 256 with (2 ^ 8). apply Z.log2_lt_pow2; [lia|].
  pose proof (Z.log2_lxor a b Ha Hb) as Hl.
  assert (La : Z.log2 a < 8).
  { destruct (Z.eq_dec a 0) as [->|]; [simpl; lia|].
    apply Z.log2_lt_pow2; lia. }
  assert (Lb : Z.log2 b < 8).
  { destruct (Z.eq_dec b 0) as [->|]; [simpl; lia|].
    apply Z.log2_lt_pow2; lia. }
  lia.
Qed.

Lemma fold_lxor_byte (bs : list Z) (acc : Z) :
  is_byte acc -> Forall is_byte bs -> is_byte (fold_left Z.lxor bs acc).
Proof.
  intros Ha H. revert acc Ha.
  induction H as [|b bs Hb _ IH]; simpl; intros acc Ha; [exact Ha|].
  apply IH. now apply lxor_byte.
Qed.

Lemma xor_fold_byte (bs : list Z) : Forall is_byte bs -> is_byte (xor_fold bs).
Proof. apply fold_lxor_byte. unfold is_byte. lia. Qed.

(** A sealed byte string checks: the XOR of all its bytes is zero. *)
Lemma seal_checks (bs : list Z) :
  Forall is_byte bs -> Forall is_byte (seal bs) /\ xor_fold (seal bs) = 0.
Proof.
  intros H. pose proof (xor_fold_byte bs H) as Hx. split.
  - unfold seal. apply Forall_app. split; [exact H|].
    constructor; [apply land_255_is_byte|constructor].
  - unfold seal, xor_fold. rewrite fold_left_app. simpl.
    fold (xor_fold bs). rewrite (land_255_byte _ Hx).
    apply Z.lxor_nilpotent.
Qed.

Lemma byte_val_is_byte (b : Byte.byte) : is_byte (byte_val b).
Proof.
  unfold is_byte, byte_val. pose proof (Byte.to_N_bounded b). lia.
Qed.

(** What [bytes(payload)] returns for a list that passed the type
    check: the list was one of ints in byte range. *)
Lemma bytes_of_ints_inv (xs : list obj) (body : list Z) :
  bytes_of_ints xs = inr body -> xs = map Int body /\ Forall is_byte body.
Proof.
  revert body. induction xs as [|x xs IH]; simpl; intros body H.
  - injection H as <-. split; [reflexivity|constructor].
  - destruct x; try discriminate.
    destruct ((0 <=? z) && (z <? 256)) eqn:E; [|discriminate].
    destruct (bytes_of_ints xs) as [e|body'] eqn:E'; [discriminate|].
    injection H as <-. destruct (IH body' eq_refl) as [-> Hb].
    split; [reflexivity|]. constructor; [now apply byte_test|exact Hb].
Qed.

Lemma bytes_inv (payload : obj) (body : list Z) :
  bytes payload = inr body -> payload_of body payload.
Proof.
  destruct payload; simpl; try discriminate.
  - intros [= <-]. constructor.
  - intros H. destruct (bytes_of_ints_inv _ _ H) as [-> Hb]. now constructor.
Qed.

Lemma payload_of_bytes (body : list Z) (payload : obj) :
  payload_of body payload -> Forall is_byte body.
Proof.
  destruct 1 as [body H|bs]; [exact H|].
  apply Forall_forall. intros x Hx. apply list_elem_of_fmap in Hx as (b & -> & _).
  apply byte_val_is_byte.
Qed.

(** What a successful [build_frame] was given. *)
Lemma build_frame_inv (cmd payload : obj) (f : frame) :
  build_frame cmd payload = inr f ->
  exists c body,
    cmd = Int c /\ payload_of body payload /\ (length body <= 17)%nat /\
    f = seal (pad19 (51 :: Z.land c 255 :: body)).
Proof.
  unfold build_frame. destruct cmd as [c| | | | |]; try discriminate.
  destruct (negb (payload_type_ok payload)); [discriminate|].
  destruct (17 <? len payload) eqn:El; [discriminate|].
  destruct (bytes payload) as [e|body] eqn:Eb; [discriminate|].
  intros [= <-]. exists c, body.
  pose proof (bytes_inv _ _ Eb) as Hp.
  destruct (payload_of_ok _ _ Hp) as (_ & Hl & _).
  apply Z.ltb_ge in El. repeat split; auto. lia.
Qed.

(** X1: every frame [_send] builds is 20 bytes long, each of its items
    is a byte, and the XOR of all 20 is zero; so is the keep-alive
    frame of the worker. *)
Theorem frame_checks (cmd payload : obj) (f : frame) :
  build_frame cmd payload = inr f ->
  length f = 20%nat /\ Forall is_byte f /\ xor_fold f = 0 /\
  length keep_alive = 20%nat /\ Forall is_byte keep_alive /\
  xor_fold keep_alive = 0.
Proof.
  intros H. destruct (build_frame_inv _ _ _ H) as (c & body & _ & Hp & Hl & ->).
  assert (Hb : Forall is_byte (pad19 (51 :: Z.land c 255 :: body))).
  { unfold pad19. apply Forall_app. split.
    - constructor; [unfold is_byte; lia|].
      constructor; [apply land_255_is_byte|exact (payload_of_bytes _ _ Hp)].
    - apply Forall_forall. intros x Hx. apply list_elem_of_In in Hx.
      apply repeat_spec in Hx. subst x. unfold is_byte. lia. }
  destruct (seal_checks _ Hb) as [Hs Hx].
  split; [|split; [exact Hs|split; [exact Hx|]]].
  - rewrite length_seal, length_pad19; [reflexivity|simpl; lia].
  - split; [reflexivity|]. split; [|reflexivity].
    change keep_alive
      with [170; 1; 0; 0; 0; 0; 0; 0; 0; 0; 0; 0; 0; 0; 0; 0; 0; 0; 0; 171].
    repeat (constructor; [unfold is_byte; lia|]). constructor.
Qed.

Lemma frame_checks_witness :
  length (seal (pad19 [51; 5; 2; 255; 0; 128])) = 20%nat /\
  Forall is_byte (seal (pad19 [51; 5; 2; 255; 0; 128])) /\
  xor_fold (seal (pad19 [51; 5; 2; 255; 0; 128])) = 0 /\
  length keep_alive = 20%nat /\ Forall is_byte keep_alive /\
  xor_fold keep_alive = 0.
Proof.
  apply (frame_checks (Int 5) (List [Int 2; Int 255; Int 0; Int 128])).
  reflexivity.
Defined.

(** X2: [_send] builds a frame exactly when the command is an int and
    the payload is a [bytes] object or a list of ints in [0..255], of at
    most 17 items; in every other case it raises and builds nothing. *)
Theorem send_accepts_iff (cmd payload : obj) :
  (exists f, build_frame cmd payload = inr f) <->
  (is_int cmd = true /\
   exists body, payload_of body payload /\ (length body <= 17)%nat).
Proof.
  split.
  - intros [f H]. destruct (build_frame_inv _ _ _ H) as (c & body & -> & Hp & Hl & _).
    split; [reflexivity|]. now exists body.
  - intros [Hc (body & Hp & Hl)]. destruct cmd as [c| | | | |]; try discriminate.
    eexists. exact (build_frame_ok c payload body Hp Hl).
Qed.

Lemma pad19_inj_head (c1 c2 : Z) (b1 b2 : list Z) :
  (length b1 <= 17)%nat -> (length b2 <= 17)%nat ->
  pad19 (51 :: c1 :: b1) = pad19 (51 :: c2 :: b2) <->
  c1 = c2 /\
  b1 ++ repeat 0 (17 - length b1) = b2 ++ repeat 0 (17 - length b2).
Proof.
  intros H1 H2. unfold pad19. simpl.
  replace (Z.to_nat (19 - Z.of_nat (S (S (length b1)))))
    with (17 - length b1)%nat by lia.
  replace (Z.to_nat (19 - Z.of_nat (S (S (length b2)))))
    with (17 - length b2)%nat by lia.
  split.
  - intros [= -> E]. auto.
  - intros [-> E]. now rewrite E.
Qed.

(** X3: two sends build the same frame exactly when their commands
    agree modulo 256 and their payloads agree once padded with zero
    bytes to 17: the frame does not carry the length of the payload, so
    a payload and the same payload followed by zero bytes cannot be told
    apart on the wire. *)
Theorem same_frame_iff (c1 c2 : Z) (b1 b2 : list Z) (p1 p2 : obj) :
  payload_of b1 p1 -> payload_of b2 p2 ->
  (length b1 <= 17)%nat -> (length b2 <= 17)%nat ->
  build_frame (Int c1) p1 = build_frame (Int c2) p2 <->
  (c1 mod 256 = c2 mod 256 /\
   b1 ++ repeat 0 (17 - length b1) = b2 ++ repeat 0 (17 - length b2)).
Proof.
  intros Hp1 Hp2 H1 H2.
  rewrite (build_frame_ok c1 p1 b1 Hp1 H1), (build_frame_ok c2 p2 b2 Hp2 H2).
  change 255 with (Z.ones 8). rewrite !Z.land_ones by lia.
  change (2 ^ 8) with 256.
  rewrite <- (pad19_inj_head (c1 mod 256) (c2 mod 256) b1 b2 H1 H2).
  split.
  - intros E. apply (inj inr) in E. unfold seal in E.
    now apply app_inj_tail in E as [E _].
  - now intros ->.
Qed.

Lemma same_frame_iff_witness :
  build_frame (Int 1) (List (map Int [1])) =
  build_frame (Int 257) (List (map Int [1; 0; 0])).
Proof.
  apply (same_frame_iff 1 257 [1] [1; 0; 0]).
  - apply payload_list. repeat constructor; unfold is_byte; lia.
  - apply payload_list. repeat constructor; unfold is_byte; lia.
  - simpl. lia.
  - simpl. lia.
  - split; reflexivity.
Defined.

(* ================================================================== *)
(** ** The brightness scale *)
(* ================================================================== *)

Lemma levels_table : levels_increase = true.
Proof. vm_compute. reflexivity. Qed.

Lemma level_step (v : Z) :
  0 <= v < 100 -> level_byte v < level_byte (v + 1).
Proof.
  intros H. pose proof levels_table as T. unfold levels_increase in T.
  rewrite forallb_forall in T. apply Z.ltb_lt. apply T.
  rewrite <- (Z2Nat.id v) by lia. apply in_map, in_seq. lia.
Qed.

Lemma level_mono (v : Z) (n : nat) :
  0 <= v -> v + Z.of_nat (S n) <= 100 ->
  level_byte v < level_byte (v + Z.of_nat (S n)).
Proof.
  intros H0. induction n as [|n IH]; intros H.
  - apply level_step. lia.
  - etransitivity; [apply IH; lia|].
    replace (v + Z.of_nat (S (S n))) with (v + Z.of_nat (S n) + 1) by lia.
    apply level_step. lia.
Qed.

Lemma level_byte_ok (v : Z) :
  0 <= v <= 100 -> brightness_byte v = inr (level_byte v) /\ is_byte (level_byte v).
Proof.
  intros H. pose proof (brightness_in_range v H) as C.
  unfold brightness_check in C. unfold level_byte.
  destruct (brightness_byte v) as [e|b]; [discriminate|].
  split; [reflexivity|].
  apply andb_true_iff in C as [C _]. apply andb_true_iff in C as [C _].
  apply andb_true_iff in C as [C1 C2].
  apply Z.leb_le in C1. apply Z.ltb_lt in C2. unfold is_byte. lia.
Qed.

(** X4: on [0..100] the brightness byte grows strictly with the value:
    a larger percentage always sends a larger byte, and two different
    percentages never send the same frame. *)
Theorem brightness_strictly_increasing (v w : Z) :
  0 <= v -> v < w -> w <= 100 ->
  exists bv bw,
    brightness_byte v = inr bv /\ brightness_byte w = inr bw /\ bv < bw /\
    level_frame v <> level_frame w.
Proof.
  intros H0 Hlt Hw.
  destruct (level_byte_ok v) as [Ev Bv]; [lia|].
  destruct (level_byte_ok w) as [Ew Bw]; [lia|].
  assert (Hm : level_byte v < level_byte w).
  { replace w with (v + Z.of_nat (S (Z.to_nat (w - v - 1)))) by lia.
    apply level_mono; lia. }
  exists (level_byte v), (level_byte w). repeat split; auto.
  unfold level_frame. rewrite Ev, Ew. intros E.
  assert (L : forall b, seal (pad19 [51; 4; b]) !! 2%nat = Some b)
    by reflexivity.
  pose proof (L (level_byte v)) as Lv. rewrite E, L in Lv.
  injection Lv as Lv. lia.
Qed.

Lemma brightness_strictly_increasing_witness :
  exists bv bw,
    brightness_byte 29 = inr bv /\ brightness_byte 30 = inr bw /\ bv < bw /\
    level_frame 29 <> level_frame 30.
Proof. apply (brightness_strictly_increasing 29 30); lia. Defined.

(* ================================================================== *)
(** ** [fade] and [blink] *)
(* ================================================================== *)

Lemma sends_app (fs gs : list frame) (k : prog) :
  sends (fs ++ gs) k = sends fs (sends gs k).
Proof. induction fs as [|f fs IH]; simpl; [reflexivity|now rewrite IH]. Qed.

Lemma set_brightness_sends (v : Z) (k : prog) :
  0 <= v <= 100 -> set_brightness v k = sends [level_frame v] k.
Proof.
  intros H. destruct (level_byte_ok v H) as [E B].
  unfold set_brightness, level_frame. rewrite E.
  replace ((0 <=? v) && (v <=? 100)) with true
    by (symmetry; apply andb_true_intro; split; apply Z.leb_le; lia).
  simpl. unfold _send.
  change (List [Int (level_byte v)]) with (List (map Int [level_byte v])).
  rewrite (build_frame_ok 4 _ [level_byte v]).
  - reflexivity.
  - apply payload_list. constructor; [exact B|constructor].
  - simpl. lia.
Qed.

Lemma set_brightness_raises (v : Z) (k : prog) :
  v < 0 \/ 100 < v -> set_brightness v k = Raise BrightnessOutOfRange.
Proof.
  intros H. unfold set_brightness.
  replace ((0 <=? v) && (v <=? 100)) with false; [reflexivity|].
  symmetry. apply andb_false_iff.
  destruct H; [left|right]; apply Z.leb_gt; lia.
Qed.

Lemma ramp_sends (items : list Z) (k : prog) :
  Forall (fun v => 0 <= v <= 100) items ->
  ramp items k = sends (map level_frame items) k.
Proof.
  induction 1 as [|v items Hv _ IH]; simpl; [reflexivity|].
  now rewrite IH, (set_brightness_sends v _ Hv).
Qed.

Lemma ramp_app (items rest : list Z) (k : prog) :
  ramp (items ++ rest) k = ramp items (ramp rest k).
Proof.
  induction items as [|v items IH]; simpl; [reflexivity|now rewrite IH].
Qed.

(** The items of the two ranges of [fade]. *)
Lemma range_up (amt speed : Z) :
  0 <= amt -> 1 <= speed ->
  range 0 (amt + 1) speed
  = inr (map (fun i => Z.of_nat i * speed) (seq 0 (Z.to_nat (amt / speed + 1)))).
Proof.
  intros Ha Hs. unfold range, range_length.
  replace (speed =? 0) with false by (symmetry; apply Z.eqb_neq; lia).
  replace (0 <? speed) with true by (symmetry; apply Z.ltb_lt; lia).
  replace (0 <? amt + 1) with true by (symmetry; apply Z.ltb_lt; lia).
  replace (amt + 1 - 0 - 1) with amt by lia. reflexivity.
Qed.

Lemma range_down (amt speed : Z) :
  0 <= amt -> 1 <= speed ->
  range amt (-1) (- speed)
  = inr (map (fun i => amt + Z.of_nat i * - speed)
             (seq 0 (Z.to_nat (amt / speed + 1)))).
Proof.
  intros Ha Hs. unfold range, range_length.
  replace (- speed =? 0) with false by (symmetry; apply Z.eqb_neq; lia).
  replace (0 <? - speed) with false by (symmetry; apply Z.ltb_ge; lia).
  replace (-1 <? amt) with true by (symmetry; apply Z.ltb_lt; lia).
  replace (amt - -1 - 1) with amt by lia.
  replace (- - speed) with speed by lia. reflexivity.
Qed.

Lemma steps_within (amt speed : Z) (i : nat) :
  0 <= amt -> 1 <= speed -> (i < Z.to_nat (amt / speed + 1))%nat ->
  0 <= Z.of_nat i * speed <= amt.
Proof.
  intros Ha Hs Hi.
  assert (Hq : 0 <= amt / speed) by (apply Z.div_pos; lia).
  assert (Hi' : Z.of_nat i <= amt / speed) by lia.
  pose proof (Z.mul_div_le amt speed ltac:(lia)) as Hm.
  split; [nia|]. nia.
Qed.

Lemma ups_in_range (amt speed : Z) :
  0 <= amt <= 100 -> 1 <= speed ->
  Forall (fun v => 0 <= v <= 100)
         (map (fun i => Z.of_nat i * speed)
              (seq 0 (Z.to_nat (amt / speed + 1)))).
Proof.
  intros Ha Hs. apply Forall_forall. intros v Hv.
  apply list_elem_of_fmap in Hv as (i & -> & Hi).
  apply list_elem_of_In, in_seq in Hi.
  pose proof (steps_within amt speed i ltac:(lia) Hs ltac:(lia)). lia.
Qed.

Lemma downs_in_range (amt speed : Z) :
  0 <= amt <= 100 -> 1 <= speed ->
  Forall (fun v => 0 <= v <= 100)
         (map (fun i => amt + Z.of_nat i * - speed)
              (seq 0 (Z.to_nat (amt / speed + 1)))).
Proof.
  intros Ha Hs. apply Forall_forall. intros v Hv.
  apply list_elem_of_fmap in Hv as (i & -> & Hi).
  apply list_elem_of_In, in_seq in Hi.
  pose proof (steps_within amt speed i ltac:(lia) Hs ltac:(lia)). lia.
Qed.

Lemma last_map_seq {A : Type} (g : nat -> A) (n : nat) :
  last (map g (seq 0 (S n))) = Some (g n).
Proof.
  rewrite seq_S, map_app. simpl. apply last_snoc.
Qed.

(** X5: for an amount in [0..100] and a speed of at least 1, [fade]
    without a colour never raises and sends exactly one brightness frame
    per step: going in, the values 0, speed, 2*speed, ... up to the
    amount; going out, the values amount, amount - speed, ... down to 0.
    The way in ends at [amount - amount mod speed] and the way out at
    [amount mod speed]: the light reaches the amount, and goes fully
    dark again, only if the speed divides the amount. *)
Theorem fade_sends (fade_in fade_out : bool) (amt speed : Z) (k : prog) :
  0 <= amt <= 100 -> 1 <= speed ->
  let n := Z.to_nat (amt / speed + 1) in
  let ups := map (fun i => Z.of_nat i * speed) (seq 0 n) in
  let downs := map (fun i => amt + Z.of_nat i * - speed) (seq 0 n) in
  fade fade_in fade_out amt speed None k
  = sends (map level_frame ((if fade_in then ups else [])
                            ++ (if fade_out then downs else []))) k /\
  last ups = Some (amt - amt mod speed) /\
  last downs = Some (amt mod speed).
Proof.
  intros Ha Hs n ups downs.
  assert (Hq : 0 <= amt / speed) by (apply Z.div_pos; lia).
  assert (Hn : n = S (Z.to_nat (amt / speed))) by (unfold n; lia).
  pose proof (Z.div_mod amt speed ltac:(lia)) as Hdm.
  split; [|split].
  - unfold fade, prime, ramp_range.
    rewrite map_app, sends_app.
    destruct fade_in, fade_out; simpl;
      rewrite ?(range_up amt speed), ?(range_down amt speed) by lia;
      rewrite ?(ramp_sends _ _ (ups_in_range amt speed Ha Hs)),
              ?(ramp_sends _ _ (downs_in_range amt speed Ha Hs));
      reflexivity.
  - unfold ups. rewrite Hn, last_map_seq. f_equal.
    rewrite Z2Nat.id by lia. lia.
  - unfold downs. rewrite Hn, last_map_seq. f_equal.
    rewrite Z2Nat.id by lia. lia.
Qed.

Lemma fade_sends_witness :
  let n := Z.to_nat (100 / 30 + 1) in
  let ups := map (fun i => Z.of_nat i * 30) (seq 0 n) in
  let downs := map (fun i => 100 + Z.of_nat i * - 30) (seq 0 n) in
  fade true true 100 30 None Return
  = sends (map level_frame ((if true then ups else [])
                            ++ (if true then downs else []))) Return /\
  last ups = Some (100 - 100 mod 30) /\
  last downs = Some (100 mod 30).
Proof. apply (fade_sends true true 100 30 Return); lia. Defined.

(** X6: [fade] with an amount above 100 and [fade_out] set (speed at
    least 1, no colour) always ends in the [ValueError] of
    [set_brightness].  With [fade_in] set it has sent by then exactly
    the frames of the steps 0, speed, 2*speed, ... of the way in that do
    not exceed 100; with [fade_in] unset it fails before it sends
    anything. *)
Theorem fade_above_100 (fade_in : bool) (amt speed : Z) (k : prog) :
  100 < amt -> 1 <= speed ->
  fade fade_in true amt speed None k
  = sends (map level_frame
               (if fade_in
                then map (fun i => Z.of_nat i * speed)
                         (seq 0 (Z.to_nat (100 / speed + 1)))
                else []))
          (Raise BrightnessOutOfRange).
Proof.
  intros Ha Hs.
  assert (Hq : 0 <= amt / speed) by (apply Z.div_pos; lia).
  assert (Hd : ramp_range amt (-1) (- speed) k = Raise BrightnessOutOfRange).
  { unfold ramp_range. rewrite (range_down amt speed) by lia.
    replace (Z.to_nat (amt / speed + 1)) with (S (Z.to_nat (amt / speed)))
      by lia.
    simpl. apply set_brightness_raises. lia. }
  unfold fade, prime. rewrite Hd. destruct fade_in; [|reflexivity].
  unfold ramp_range. rewrite (range_up amt speed) by lia.
  assert (Hq' : 0 <= 100 / speed) by (apply Z.div_pos; lia).
  assert (Hle : 100 / speed <= amt / speed) by (apply Z.div_le_mono; lia).
  set (m := Z.to_nat (100 / speed + 1)).
  replace (Z.to_nat (amt / speed + 1))
    with (m + (Z.to_nat (amt / speed + 1) - m))%nat by (unfold m; lia).
  rewrite seq_app, map_app, ramp_app. simpl.
  rewrite (ramp_sends _ _ (ups_in_range 100 speed ltac:(lia) Hs)).
  f_equal.
  destruct (Z.to_nat (amt / speed + 1) - m)%nat as [|d]; [reflexivity|].
  simpl. apply set_brightness_raises. right.
  unfold m. rewrite Z2Nat.id by lia.
  pose proof (Z.mul_succ_div_gt 100 speed ltac:(lia)) as G. lia.
Qed.

Lemma fade_above_100_witness :
  fade true true 150 60 None Return
  = sends (map level_frame
               (if true
                then map (fun i => Z.of_nat i * 60)
                         (seq 0 (Z.to_nat (100 / 60 + 1)))
                else []))
          (Raise BrightnessOutOfRange).
Proof. apply (fade_above_100 true 150 60 Return); lia. Defined.

(** X7: a speed of zero makes [fade] fail with the [ValueError] of
    [range] before any brightness frame is sent, and a negative speed
    (amount at least 0) makes it return at once, having sent nothing. *)
Theorem fade_degenerate_speed (fade_in fade_out : bool) (amt speed : Z)
        (k : prog) :
  (speed = 0 -> fade_in || fade_out = true ->
   fade fade_in fade_out amt speed None k
   = Raise (ValueError "range() arg 3 must not be zero")) /\
  (speed < 0 -> 0 <= amt ->
   fade fade_in fade_out amt speed None k = k).
Proof.
  split.
  - intros -> H. unfold fade, prime, ramp_range, range. simpl.
    destruct fade_in, fade_out; try discriminate; reflexivity.
  - intros Hs Ha. unfold fade, prime, ramp_range, range, range_length.
    replace (speed =? 0) with false by (symmetry; apply Z.eqb_neq; lia).
    replace (- speed =? 0) with false by (symmetry; apply Z.eqb_neq; lia).
    replace (0 <? speed) with false by (symmetry; apply Z.ltb_ge; lia).
    replace (0 <? - speed) with true by (symmetry; apply Z.ltb_lt; lia).
    replace (amt + 1 <? 0) with false by (symmetry; apply Z.ltb_ge; lia).
    replace (amt <? -1) with false by (symmetry; apply Z.ltb_ge; lia).
    destruct fade_in, fade_out; reflexivity.
Qed.

Lemma fade_degenerate_speed_witness :
  fade true true 100 0 None Return
  = Raise (ValueError "range() arg 3 must not be zero") /\
  fade true true 100 (-5) None Return = Return.
Proof.
  split.
  - apply (fade_degenerate_speed true true 100 0 Return); reflexivity.
  - apply (fade_degenerate_speed true true 100 (-5) Return); lia.
Defined.







(* ================================================================== *)
(** ** Stopping: what the worker still does *)
(* ================================================================== *)

Lemma step_after_stop (c : choice) (s s' : state) :
  stop s = true -> step c s = Some s' ->
  stop s' = true /\
  (length (link s') + budget (pc s') <= length (link s) + budget (pc s))%nat.
Proof.
  intros Hs H. destruct c as [t|ok| |t]; simpl in H.
  - destruct (PrimFloat.leb _ _); [|discriminate]. injection H as <-. simpl.
    split; [exact Hs|lia].
  - unfold worker_step, crash, set_pc in H. rewrite ?Hs in H.
    destruct (pc s) eqn:E; try destruct ok; try destruct (queue s);
      try destruct (unfinished s);
      try destruct (PrimFloat.ltb (PrimFloat.add (prev_time s) 3%float) (now s));
      try discriminate; injection H as <-; simpl;
      rewrite ?length_app; simpl; (split; [auto|lia]).
  - unfold init_step in H. destruct (ctor s); [|discriminate].
    destruct (_ && _); injection H as <-; simpl; (split; [exact Hs|lia]).
  - unfold caller_step, set_caller in H. destruct (ctor s); [discriminate|].
    destruct (callers s !! t) as [[]|]; try discriminate;
      try destruct (unfinished s); try discriminate; injection H as <-;
      simpl; (split; [auto|lia]).
Qed.

(** X10: [stop] is one-way, and a worker told to stop writes at most
    the one frame of the turn of its loop it is in: no step ever clears
    the flag, and from then on the link grows by at most one frame (by
    none if the worker was at the top of its loop), whatever is still
    in the queue. *)
Theorem stop_is_final (sched : list choice) (s s' : state) :
  stop s = true -> run sched s = Some s' ->
  stop s' = true /\
  link s `prefix_of` link s' /\
  (length (link s') <= length (link s) + budget (pc s))%nat /\
  (pc s = WLoop -> link s' = link s).
Proof.
  intros Hs H.
  assert (G : stop s' = true /\
              (length (link s') + budget (pc s')
               <= length (link s) + budget (pc s))%nat).
  { revert s Hs H. induction sched as [|c sched IH]; simpl; intros s Hs H.
    - injection H as <-. split; [exact Hs|lia].
    - destruct (step c s) as [s1|] eqn:E; [|discriminate].
      destruct (step_after_stop c s s1 Hs E) as [Hs1 Hb].
      destruct (IH s1 Hs1 H) as [Hs' Hb']. split; [exact Hs'|lia]. }
  destruct G as [Hs' Hb]. pose proof (run_link sched s s' H) as Hp.
  split; [exact Hs'|]. split; [exact Hp|]. split; [lia|].
  intros Hpc. rewrite Hpc in Hb. simpl in Hb.
  destruct Hp as [k Hk]. rewrite Hk in Hb. rewrite length_app in Hb.
  destruct k; [now rewrite app_nil_r in Hk|simpl in Hb; lia].
Qed.

Lemma stop_is_final_witness :
  exists s,
    run (startup ++ [Caller 0%nat; Caller 0%nat; Caller 0%nat; Caller 0%nat;
                     Caller 0%nat; Caller 0%nat])
        (init true [SetBlocking false
                      (turn_on (turn_off (disconnect false Return)))])
    = Some s /\
    forall sched s', run sched s = Some s' ->
      stop s' = true /\
      link s `prefix_of` link s' /\
      (length (link s') <= length (link s) + budget (pc s))%nat /\
      (pc s = WLoop -> link s' = link s).
Proof.
  eexists. split; [vm_compute; reflexivity|].
  intros sched s'. apply (stop_is_final sched). reflexivity.
Defined.

(** X11: once [stop] is set, a worker left to run leaves its loop and
    closes the connection within six steps of its own; if it is at the
    top of the loop it does so in two, without taking another frame from
    the queue, however many are waiting. *)
Theorem stop_is_honoured (block : bool) (progs : list prog) (s : state) :
  Forall api progs -> reachable block progs s -> stop s = true ->
  (exists n s',
     (n <= 6)%nat /\ run (repeat (Worker true) n) s = Some s' /\
     (pc s' = WExited \/ pc s' = WFailed) /\ connected s' = false) /\
  (pc s = WLoop ->
   exists s',
     run [Worker true; Worker true] s = Some s' /\
     pc s' = WExited /\ connected s' = false /\
     queue s' = queue s /\ link s' = link s).
Proof.
  intros A R Hs.
  pose proof (reachable_invariant block progs s (Forall_api_good _ A) R) as I.
  destruct I as [_ _ _ X _ _ _].
  destruct s as [nw q u st rd pt p cn lk bl ct cs en]. simpl in *. subst st.
  split.
  - destruct p; try destruct q as [|f0 q]; try destruct u as [|u];
      try destruct (PrimFloat.ltb (PrimFloat.add pt 3%float) nw) eqn:T3.
    all: first
      [ exists 0%nat; eexists; split; [lia|]; split; [reflexivity|];
        simpl; split; [auto; fail|assumption]
      | exists 1%nat; eexists; split; [lia|]; split;
        [cbn; rewrite ?T3; reflexivity|]; simpl; split; [auto; fail|reflexivity]
      | exists 2%nat; eexists; split; [lia|]; split;
        [cbn; rewrite ?T3; reflexivity|]; simpl; split; [auto; fail|reflexivity]
      | exists 3%nat; eexists; split; [lia|]; split;
        [cbn; rewrite ?T3; reflexivity|]; simpl; split; [auto; fail|reflexivity]
      | exists 4%nat; eexists; split; [lia|]; split;
        [cbn; rewrite ?T3; reflexivity|]; simpl; split; [auto; fail|reflexivity]
      | exists 5%nat; eexists; split; [lia|]; split;
        [cbn; rewrite ?T3; reflexivity|]; simpl; split; [auto; fail|reflexivity]
      | exists 6%nat; eexists; split; [lia|]; split;
        [cbn; rewrite ?T3; reflexivity|]; simpl; split; [auto; fail|reflexivity]
      ].
  - intros ->. eexists. split; [reflexivity|]. simpl. auto.
Qed.

Lemma stop_is_honoured_witness :
  exists s,
    run (startup ++ [Caller 0%nat; Caller 0%nat; Caller 0%nat; Caller 0%nat;
                     Caller 0%nat; Caller 0%nat])
        (init true [SetBlocking false (turn_on (turn_off (disconnect false Return)))])
    = Some s /\
    exists s',
      run [Worker true; Worker true] s = Some s' /\
      pc s' = WExited /\ connected s' = false /\
      queue s' = queue s /\ link s' = link s.
Proof.
  eexists. split; [vm_compute; reflexivity|].
  match goal with
  | |- exists s', run _ ?S = _ /\ _ =>
      destruct (stop_is_honoured true
                  [SetBlocking false (turn_on (turn_off (disconnect false Return)))]
                  S) as [_ H]
  end.
  - repeat constructor.
  - apply (run_from_init true _
             (startup ++ [Caller 0%nat; Caller 0%nat; Caller 0%nat;
                          Caller 0%nat; Caller 0%nat; Caller 0%nat])).
    vm_compute. reflexivity.
  - reflexivity.
  - apply H. reflexivity.
Defined.

(* ================================================================== *)
(** ** A write that fails *)
(* ================================================================== *)

Lemma join_blocked (s : state) (t : nat) (k : prog) :
  unfinished s <> 0%nat -> callers s !! t = Some (QueueJoin k) ->
  step (Caller t) s = None.
Proof.
  intros Hu Ht. simpl. unfold caller_step.
  destruct (ctor s); [reflexivity|]. rewrite Ht.
  destruct (unfinished s); [contradiction|reflexivity].
Qed.

(** X12: a write of a command frame that fails is fatal and silent: the
    worker dies and the connection is closed; the frame it held and the
    frames still queued are never written; and the count of unfinished
    items never returns to zero, so every caller that is or comes to be
    in [join] (every blocking send) waits for ever.  No caller is given
    an exception. *)
Theorem write_failure (block : bool) (progs : list prog) (s : state)
        (f : frame) :
  Forall api progs -> reachable block progs s -> pc s = WWrite f ->
  exists s1,
    step (Worker false) s = Some s1 /\
    pc s1 = WFailed /\ connected s1 = false /\
    callers s1 = callers s /\
    forall sched s', run sched s1 = Some s' ->
      link s' = link s /\ pc s' = WFailed /\
      unfinished s' <> 0%nat /\
      forall t k, callers s' !! t = Some (QueueJoin k) ->
                  step (Caller t) s' = None.
Proof.
  intros A R Hpc.
  pose proof (reachable_invariant block progs s (Forall_api_good _ A) R) as I.
  destruct I as [(held & Hh & _ & Hu) _ _ _ _ _ _].
  unfold holds, in_flight in Hh. rewrite Hpc in Hh, Hu. subst held.
  exists (crash s). split; [simpl; unfold worker_step; now rewrite Hpc|].
  split; [reflexivity|]. split; [reflexivity|]. split; [reflexivity|].
  intros sched s' H.
  assert (Hf : pc (crash s) = WExited \/ pc (crash s) = WFailed) by now right.
  destruct (run_after_exit sched (crash s) s' Hf H) as [Hl Hp].
  pose proof (run_unfinished_after_exit sched (crash s) s' Hf H) as Hn.
  simpl in Hl, Hp, Hn, Hu.
  assert (Hne : unfinished s' <> 0%nat) by lia.
  repeat split; auto.
  intros t k Ht. now apply (join_blocked s' t k).
Qed.

Lemma write_failure_witness :
  exists s,
    run (startup ++ [Caller 0%nat; Caller 0%nat; Worker true; Worker true;
                     Worker true])
        (init true [turn_on Return]) = Some s /\
    exists s1,
      step (Worker false) s = Some s1 /\
      pc s1 = WFailed /\ connected s1 = false /\
      callers s1 = callers s /\
      forall sched s', run sched s1 = Some s' ->
        link s' = link s /\ pc s' = WFailed /\
        unfinished s' <> 0%nat /\
        forall t k, callers s' !! t = Some (QueueJoin k) ->
                    step (Caller t) s' = None.
Proof.
  eexists. split; [vm_compute; reflexivity|].
  match goal with
  | |- exists s1, step _ ?S = _ /\ _ =>
      apply (write_failure true [turn_on Return] S
               [51; 1; 1; 0; 0; 0; 0; 0; 0; 0; 0; 0; 0; 0; 0; 0; 0; 0; 0; 51])
  end.
  - repeat constructor.
  - apply (run_from_init true _
             (startup ++ [Caller 0%nat; Caller 0%nat; Worker true;
                          Worker true; Worker true])).
    vm_compute. reflexivity.
  - reflexivity.
Defined.

(* ================================================================== *)
(** ** The constructor and the connection *)
(* ================================================================== *)

(** [ready] is set exactly by a connection that succeeded. *)
Lemma ready_after_connect (block : bool) (progs : list prog) (s : state) :
  reachable block progs s ->
  match pc s with
  | WStart | WConnect => ready s = false
  | WFailed => True
  | _ => ready s = true
  end.
Proof.
  induction 1 as [|c s s' _ IH H]; [reflexivity|].
  destruct c as [t|ok| |t]; simpl in H.
  - destruct (PrimFloat.leb _ _); [|discriminate]. injection H as <-. exact IH.
  - unfold worker_step, crash, set_pc in H.
    destruct (pc s) eqn:E; try destruct ok; try destruct (stop s);
      try destruct (queue s); try destruct (unfinished s);
      try destruct (PrimFloat.ltb (PrimFloat.add (prev_time s) 3%float) (now s));
      try discriminate; injection H as <-; simpl; auto.
  - unfold init_step in H. destruct (ctor s); [|discriminate].
    destruct (_ && _); injection H as <-; exact IH.
  - unfold caller_step, set_caller in H. destruct (ctor s); [discriminate|].
    destruct (callers s !! t) as [[]|]; try discriminate;
      try destruct (unfinished s); try discriminate; injection H as <-;
      exact IH.
Qed.

(** X13: a constructor called with [block = True] returns only once the
    worker has connected; and until the constructor returns, whatever
    [block] is, no caller has run: nothing was enqueued and no command
    frame is on the link. *)
Theorem constructor_returns_connected (block : bool) (progs : list prog)
        (s : state) :
  Forall api progs -> reachable block progs s ->
  (forall s', ctor s = Some true -> step Init s = Some s' ->
     ctor s' = None ->
     ready s = true /\ pc s <> WStart /\ pc s <> WConnect) /\
  (forall b, ctor s = Some b ->
     b = block /\ callers s = progs /\ enqueued s = [] /\ queue s = [] /\
     transmitted s = []).
Proof.
  intros A R.
  pose proof (reachable_invariant block progs s (Forall_api_good _ A) R) as I.
  destruct I as [(held & Hh & Hf & Hu) _ _ _ _ _ K].
  split.
  - intros s' Hc H Hc'. simpl in H. unfold init_step in H. rewrite Hc in H.
    destruct (ready s) eqn:Er; simpl in H.
    + pose proof (ready_after_connect block progs s R) as P.
      split; [reflexivity|].
      split; intros E; rewrite E in P; congruence.
    + injection H as <-. congruence.
  - intros b Hc. destruct (K b Hc) as [He Hcs].
    unfold enqueued in *. rewrite He in Hf. simpl in Hf.
    apply app_eq_nil in Hf as [Ht Hf]. apply app_eq_nil in Hf as [_ Hq].
    repeat split; auto; [|now rewrite He].
    clear -R Hc. revert Hc.
    induction R as [|c s s' R IH H]; [simpl; congruence|].
    destruct c as [t|ok| |t]; simpl in H.
    + destruct (PrimFloat.leb _ _); [|discriminate]. injection H as <-. exact IH.
    + unfold worker_step, crash, set_pc in H.
      destruct (pc s) eqn:E; try destruct ok; try destruct (queue s);
        try destruct (unfinished s); try discriminate; injection H as <-;
        exact IH.
    + unfold init_step in H.
      destruct (ctor s) as [b'|] eqn:Ec; [|discriminate].
      destruct (_ && _); injection H as <-; [|discriminate].
      intros Hc. apply IH. congruence.
    + unfold caller_step, set_caller in H.
      destruct (ctor s); [discriminate|].
      destruct (callers s !! t) as [[]|]; try discriminate;
        try destruct (unfinished s); try discriminate; injection H as <-;
        discriminate.
Qed.

Lemma constructor_returns_connected_witness :
  exists s,
    run [Worker true; Worker true] (init true [turn_on Return]) = Some s /\
    forall s', ctor s = Some true -> step Init s = Some s' ->
      ctor s' = None ->
      ready s = true /\ pc s <> WStart /\ pc s <> WConnect.
Proof.
  eexists. split; [vm_compute; reflexivity|].
  match goal with
  | |- forall s', ctor ?S = _ -> _ =>
      apply (constructor_returns_connected true [turn_on Return] S)
  end.
  - repeat constructor.
  - apply (run_from_init true _ [Worker true; Worker true]).
    vm_compute. reflexivity.
Defined.

(* ================================================================== *)
(** ** [disconnect(turn_off=True)] *)
(* ================================================================== *)

Lemma disconnect_true_program (k : prog) :
  disconnect true k
  = SetBlocking true (sends [full_frame; off_frame] (StopWork k)).
Proof. reflexivity. Qed.

(** What a step of the clock, the worker or the constructor leaves as
    it is. *)
Lemma step_of_others (c : choice) (s s' : state) :
  (forall t, c <> Caller t) -> step c s = Some s' ->
  callers s' = callers s /\ enq s' = enq s /\ stop s' = stop s /\
  (blocking s = true -> blocking s' = true) /\
  transmitted s `prefix_of` transmitted s'.
Proof.
  intros Hc H.
  assert (Hl : transmitted s `prefix_of` transmitted s').
  { apply filter_prefix. apply (run_link [c]). simpl. now rewrite H. }
  destruct c as [t|ok| |t]; simpl in H.
  - destruct (PrimFloat.leb _ _); [|discriminate]. injection H as <-. auto.
  - unfold worker_step, crash, set_pc in H.
    destruct (pc s) eqn:E; try destruct ok; try destruct (queue s);
      try destruct (unfinished s); try discriminate; injection H as <-;
      simpl in *; auto.
  - unfold init_step in H. destruct (ctor s); [|discriminate].
    destruct (_ && _); injection H as <-; simpl in *; auto.
  - now destruct (Hc t).
Qed.

Lemma classic_caller (c : choice) :
  (exists t, c = Caller t) \/ (forall t, c <> Caller t).
Proof. destruct c; [right|right|right|left; eauto]; discriminate. Qed.

Lemma turning_off_others (before : list frame) (k : prog) (c : choice)
      (s s' : state) :
  (forall t, c <> Caller t) -> turning_off before k s -> step c s = Some s' ->
  turning_off before k s'.
Proof.
  intros Hn P H.
  destruct (step_of_others c s s' Hn H) as (Ec & Ee & Es & Eb & El).
  assert (Eq : enqueued s' = enqueued s) by (unfold enqueued; now rewrite Ee).
  destruct P as [Hc He Hs|Hc Hb He Hs|Hc Hb He Hs|Hc Hb He Hs|Hc Hb He Hs
                 |Hc Hb He Hs|Hc He Hs|Hc Hp Hs|Hp].
  - apply off_start; congruence.
  - apply off_put_full; auto; congruence.
  - apply off_test_full; auto; congruence.
  - apply off_join_full; auto; congruence.
  - apply off_put_off; auto; congruence.
  - apply off_test_off; auto; congruence.
  - apply off_join_off; congruence.
  - apply off_stop; [congruence| |congruence]. etransitivity; eauto.
  - apply off_done. etransitivity; eauto.
Qed.

Lemma turning_off_step (progs : list prog) (before : list frame) (k : prog)
      (c : choice) (s s' : state) :
  invariant progs s -> turning_off before k s -> step c s = Some s' ->
  turning_off before k s'.
Proof.
  intros I P H.
  assert (Hl : transmitted s `prefix_of` transmitted s').
  { apply filter_prefix. apply (run_link [c]). simpl. now rewrite H. }
  destruct (classic_caller c) as [[t ->]|Hn];
    [|exact (turning_off_others before k c s s' Hn P H)].
  simpl in H. unfold caller_step, set_caller in H.
  destruct (ctor s); [discriminate|].
  destruct P as [Hc He Hs|Hc Hb He Hs|Hc Hb He Hs|Hc Hb He Hs|Hc Hb He Hs
                 |Hc Hb He Hs|Hc He Hs|Hc Hp Hs|Hp];
    try (rewrite Hc in H; destruct t as [|t]; [|discriminate]; simpl in H).
  - injection H as <-. apply off_put_full; auto.
  - injection H as <-. apply off_test_full; auto.
    unfold enqueued in *. simpl. now rewrite map_app, He.
  - rewrite Hb in H. injection H as <-. apply off_join_full; auto.
  - destruct (unfinished s); [|discriminate]. injection H as <-.
    apply off_put_off; auto.
  - injection H as <-. apply off_test_off; auto.
    unfold enqueued in *. simpl. rewrite map_app, He, <- app_assoc.
    reflexivity.
  - rewrite Hb in H. injection H as <-. apply off_join_off; auto.
  - destruct (unfinished s) eqn:U; [|discriminate]. injection H as <-.
    apply off_stop; auto. unfold transmitted. simpl.
    change (List.filter is_command (link s)) with (transmitted s).
    now rewrite (join_drained progs s I U), He.
  - injection H as <-. apply off_done. exact Hp.
  - apply off_done. etransitivity; eauto.
Qed.

(** X14: when the only caller thread runs [disconnect(turn_off=True)],
    the worker is told to stop only after the frame of full brightness
    and the power-off frame have been written to the link, after every
    frame enqueued before: whatever the blocking flag was, the light is
    switched off before the connection is given up. *)
Theorem disconnect_turns_off_first (block : bool) (progs : list prog)
        (s : state) (k : prog) :
  Forall api progs -> reachable block progs s ->
  callers s = [disconnect true k] -> stop s = false ->
  forall sched s', run sched s = Some s' -> stop s' = true ->
    (enqueued s ++ [full_frame; off_frame]) `prefix_of` transmitted s'.
Proof.
  intros A R Hc Hs sched s' H Hs'.
  assert (P : turning_off (enqueued s) k s) by now apply off_start.
  assert (P' : turning_off (enqueued s) k s').
  { pose proof (reachable_invariant block progs s (Forall_api_good _ A) R) as I.
    clear Hc Hs Hs' R. remember (enqueued s) as before eqn:Eb. clear Eb.
    revert s I P H. induction sched as [|c sched IH]; simpl; intros s I P H.
    - now injection H as <-.
    - destruct (step c s) as [s1|] eqn:E; [|discriminate].
      apply (IH s1); [|  |exact H].
      + exact (invariant_step progs c s s1 I E).
      + exact (turning_off_step progs before k c s s1 I P E). }
  destruct P'; congruence || assumption.
Qed.

Lemma disconnect_turns_off_first_witness :
  exists s,
    run (startup ++ [Caller 0%nat]) (init true [SetBlocking false (disconnect true Return)])
    = Some s /\
    forall sched s', run sched s = Some s' -> stop s' = true ->
      (enqueued s ++ [full_frame; off_frame]) `prefix_of` transmitted s'.
Proof.
  eexists. split; [vm_compute; reflexivity|].
  match goal with
  | |- forall sched s', run sched ?S = _ -> _ =>
      apply (disconnect_turns_off_first true
               [SetBlocking false (disconnect true Return)] S Return)
  end.
  - repeat constructor.
  - apply (run_from_init true _ (startup ++ [Caller 0%nat])).
    vm_compute. reflexivity.
  - reflexivity.
  - reflexivity.
Defined.

(* ================================================================== *)
(** ** Looking a device up by name *)
(* ================================================================== *)

(** X15: [get_mac_from_name] returns the address of the first scanned
    device that carries the name, also when several do, and returns
    [None] exactly when no scanned device carries it (a device without
    a name never matches). *)
Theorem get_mac_from_name_first (devices : list BLEDevice)
        (device_name : string) :
  (forall a, get_mac_from_name devices device_name = Some a <->
     exists before dev after,
       devices = before ++ dev :: after /\
       Forall (fun d => name d <> Some device_name) before /\
       name dev = Some device_name /\ address dev = a) /\
  (get_mac_from_name devices device_name = None <->
     Forall (fun d => name d <> Some device_name) devices).
Proof.
  assert (N : forall d, named device_name d = true <-> name d = Some device_name).
  { intros d. unfold named. destruct (name d) as [n|]; [|split; discriminate].
    rewrite String.eqb_eq. split; [now intros ->|now intros [= ->]]. }
  induction devices as [|d devices [IHs IHn]]; simpl.
  - split.
    + intros a. split; [discriminate|].
      intros (before & dev & after & E & _). now destruct before.
    + split; constructor.
  - destruct (named device_name d) eqn:E.
    + apply N in E. split.
      * intros a. split.
        -- intros [= <-]. exists [], d, devices. repeat split; auto.
        -- intros ([|d' before] & dev & after & Ed & Hb & Hn & Ha).
           ++ injection Ed as -> ->. now rewrite Ha.
           ++ injection Ed as -> ->. inversion Hb; subst. contradiction.
      * split; [discriminate|]. intros H. inversion H; subst. contradiction.
    + assert (E' : name d <> Some device_name).
      { intros H. apply N in H. congruence. }
      split.
      * intros a. rewrite IHs. split.
        -- intros (before & dev & after & -> & Hb & Hn & Ha).
           exists (d :: before), dev, after. repeat split; auto.
        -- intros ([|d' before] & dev & after & Ed & Hb & Hn & Ha).
           ++ injection Ed as -> ->. contradiction.
           ++ injection Ed as -> ->. inversion Hb; subst.
              exists before, dev, after. repeat split; auto.
      * rewrite IHn. split; [now constructor|]. intros H. now inversion H.
Qed.

(* ================================================================== *)
(** ** A colour before [blink] and [fade] *)
(* ================================================================== *)

Lemma set_rgb_sends (r g b : Z) (k : prog) :
  is_byte r -> is_byte g -> is_byte b ->
  set_rgb r g b k = sends [seal (pad19 [51; 5; 2; r; g; b])] k.
Proof.
  intros Hr Hg Hb. unfold set_rgb, _send.
  change (List [Int 2; Int r; Int g; Int b])
    with (List (map Int [2; r; g; b])).
  rewrite (build_frame_ok 5 _ [2; r; g; b]).
  - reflexivity.
  - apply payload_list.
    repeat (constructor; [first [assumption | unfold is_byte; lia]|]).
    constructor.
  - simpl. lia.
Qed.

Lemma set_rgb_raises (r g b : Z) (k : prog) :
  ~ (is_byte r /\ is_byte g /\ is_byte b) ->
  set_rgb r g b k = Raise BytesOutOfRange.
Proof.
  intros H. unfold set_rgb, _send, build_frame. simpl.
  destruct ((0 <=? r) && (r <? 256)) eqn:Er; [|reflexivity].
  destruct ((0 <=? g) && (g <? 256)) eqn:Eg; [|reflexivity].
  destruct ((0 <=? b) && (b <? 256)) eqn:Eb; [|reflexivity].
  exfalso. apply H. rewrite <- !byte_test. auto.
Qed.

(** X16: given a colour, [blink] and [fade] first send the frame of
    brightness zero and then the colour frame (command 0x05, payload
    [0x02, r, g, b] with [r, g, b] the components times 255, rounded),
    and go on as without a colour; if a rounded component is outside
    [0..255] they fail after the frame of brightness zero, leaving the
    light dark. *)
Theorem colour_first (col : Color) (r g b : Z) (iterations : Z) (delay : Q)
        (fade_in fade_out : bool) (amt speed : Z) (k : prog) :
  color2rgb col = inr (r, g, b) ->
  (is_byte r /\ is_byte g /\ is_byte b ->
   blink iterations delay (Some col) k
   = sends [seal (pad19 [51; 4; 0]); seal (pad19 [51; 5; 2; r; g; b])]
           (blink iterations delay None k) /\
   fade fade_in fade_out amt speed (Some col) k
   = sends [seal (pad19 [51; 4; 0]); seal (pad19 [51; 5; 2; r; g; b])]
           (fade fade_in fade_out amt speed None k)) /\
  (~ (is_byte r /\ is_byte g /\ is_byte b) ->
   blink iterations delay (Some col) k
   = sends [seal (pad19 [51; 4; 0])] (Raise BytesOutOfRange) /\
   fade fade_in fade_out amt speed (Some col) k
   = sends [seal (pad19 [51; 4; 0])] (Raise BytesOutOfRange)).
Proof.
  intros E.
  assert (P : forall k',
             (is_byte r /\ is_byte g /\ is_byte b ->
              prime (Some col) k'
              = sends [seal (pad19 [51; 4; 0]);
                       seal (pad19 [51; 5; 2; r; g; b])] k') /\
             (~ (is_byte r /\ is_byte g /\ is_byte b) ->
              prime (Some col) k'
              = sends [seal (pad19 [51; 4; 0])] (Raise BytesOutOfRange))).
  { intros k'. unfold prime, set_color. rewrite E. split.
    - intros (Hr & Hg & Hb).
      rewrite (set_rgb_sends r g b k' Hr Hg Hb).
      now rewrite (set_brightness_sends 0) by lia.
    - intros H. rewrite (set_rgb_raises r g b k' H).
      now rewrite (set_brightness_sends 0) by lia. }
  split; intros H; split; unfold blink, fade; now apply P.
Qed.

Lemma colour_first_witness :
  blink 2 1 (Some (1%float, 0%float, 0.5%float)) Return
  = sends [seal (pad19 [51; 4; 0]); seal (pad19 [51; 5; 2; 255; 0; 128])]
          (blink 2 1 None Return) /\
  fade true true 100 10 (Some (1%float, 0%float, 0.5%float)) Return
  = sends [seal (pad19 [51; 4; 0]); seal (pad19 [51; 5; 2; 255; 0; 128])]
          (fade true true 100 10 None Return).
Proof.
  apply (colour_first (1%float, 0%float, 0.5%float) 255 0 128).
  - vm_compute. reflexivity.
  - unfold is_byte. lia.
Defined.

(* ================================================================== *)
(** ** A blocking send returns *)
(* ================================================================== *)

Lemma worker_keeps (ok : bool) (s s' : state) :
  step (Worker ok) s = Some s' ->
  callers s' = callers s /\ ctor s' = ctor s /\ stop s' = stop s.
Proof.
  simpl. unfold worker_step, crash, set_pc.
  destruct (pc s) eqn:E; try destruct ok; try destruct (queue s);
    try destruct (unfinished s); try discriminate; intros [= <-]; auto.
Qed.

Lemma transmit_keeps (n : nat) (s s' : state) :
  run (concat (repeat transmit n)) s = Some s' ->
  callers s' = callers s /\ ctor s' = ctor s /\ stop s' = stop s.
Proof.
  assert (W : forall sched, Forall (fun c => c = Worker true) sched ->
              forall s s', run sched s = Some s' ->
              callers s' = callers s /\ ctor s' = ctor s /\ stop s' = stop s).
  { induction 1 as [|c sched -> _ IH]; simpl; intros s0 s1 H.
    - injection H as <-. auto.
    - destruct (worker_step true s0) as [s2|] eqn:E; [|discriminate].
      destruct (worker_keeps true s0 s2 E) as (E1 & E2 & E3).
      destruct (IH s2 s1 H) as (E4 & E5 & E6).
      repeat split; congruence. }
  apply W. clear. induction n as [|n IH]; simpl; [constructor|].
  repeat constructor. exact IH.
Qed.

Lemma worker_drains_loop (progs : list prog) (q : list frame) (s : state) :
  invariant progs s -> pc s = WLoop -> stop s = false -> queue s = q ->
  exists s',
    run (concat (repeat transmit (length q))) s = Some s' /\
    link s' = link s ++ q /\ queue s' = [] /\ pc s' = WLoop /\
    invariant progs s'.
Proof.
  revert s. induction q as [|f q IH]; intros s I Hpc Hs Hq.
  - exists s. simpl. rewrite app_nil_r. auto.
  - destruct (turn_transmits progs s f q I Hpc Hs Hq)
      as (s1 & Hr & Hl & _ & Hq1 & Hpc1 & Hs1 & _).
    destruct (IH s1 (invariant_run progs transmit s s1 I Hr) Hpc1 Hs1 Hq1)
      as (s' & Hr' & Hl' & Hq' & Hpc' & I').
    exists s'. split.
    + change (concat (repeat transmit (length (f :: q))))
        with (transmit ++ concat (repeat transmit (length q))).
      now rewrite run_app, Hr.
    + rewrite Hl', Hl, <- app_assoc. auto.
Qed.

(** X17: a blocking send does return when the radio works: from any
    state with the worker at the top of its loop and not told to stop,
    the worker, left to run, writes every queued frame, each marked
    done, after which a caller waiting in [join] goes on. *)
Theorem blocking_send_returns (block : bool) (progs : list prog) (s : state)
        (t : nat) (k : prog) :
  Forall api progs -> reachable block progs s ->
  pc s = WLoop -> stop s = false -> ctor s = None ->
  callers s !! t = Some (QueueJoin k) ->
  exists s',
    run (concat (repeat transmit (length (queue s)))) s = Some s' /\
    link s' = link s ++ queue s /\ queue s' = [] /\
    unfinished s' = 0%nat /\
    step (Caller t) s' = Some (set_caller s' t k).
Proof.
  intros A R Hpc Hs Hc Ht.
  pose proof (reachable_invariant block progs s (Forall_api_good _ A) R) as I.
  destruct (worker_drains_loop progs (queue s) s I Hpc Hs eq_refl)
    as (s' & Hr & Hl & Hq & Hpc' & I').
  destruct (transmit_keeps _ s s' Hr) as (Ec & Ect & Est).
  destruct I' as [(held' & Hh' & Hf' & Hu') _ _ _ _ _ _].
  assert (U : unfinished s' = 0%nat).
  { unfold holds, in_flight in Hh'. rewrite Hpc' in Hh', Hu'. subst held'.
    rewrite Hu', Hq. reflexivity. }
  exists s'. repeat split; auto.
  simpl. unfold caller_step. now rewrite Ect, Hc, Ec, Ht, U.
Qed.

Lemma blocking_send_returns_witness :
  exists s,
    run (startup ++ [Caller 0%nat; Caller 0%nat]) (init true [turn_on Return])
    = Some s /\
    exists s',
      run (concat (repeat transmit (length (queue s)))) s = Some s' /\
      link s' = link s ++ queue s /\ queue s' = [] /\
      unfinished s' = 0%nat /\
      step (Caller 0%nat) s' = Some (set_caller s' 0%nat Return).
Proof.
  eexists. split; [vm_compute; reflexivity|].
  match goal with
  | |- exists s', run _ ?S = _ /\ _ =>
      apply (blocking_send_returns true [turn_on Return] S 0%nat Return)
  end; try reflexivity.
  - repeat constructor.
  - apply (run_from_init true _ (startup ++ [Caller 0%nat; Caller 0%nat])).
    vm_compute. reflexivity.
Defined.
